(** * job-status-to-apps-adapter: a model of [main.go] and its properties

    The service polls the [job_status_updates] table for job identifiers
    that still have unpropagated status updates, cuts the result into
    batches and, batch after batch, POSTs one notification per identifier
    to the apps service from its own goroutine.

    Layout of the development:
    - Go values used by the program (strings as byte sequences, errors)
      and the standard-library calls it makes: [unicode/utf8],
      [encoding/json], [net/http], [database/sql];
    - [Unpropagated], [NewPropagator], [Propagate] as functions that return
      their result together with the effects they perform;
    - the batching loop, the goroutine of a job, and the loop of [main] as
      a labelled transition system in which the goroutines of a batch
      interleave freely;
    - notions used in the statements, and sample environments;
    - the properties: the payload and its reading as a JSON text, the
      classification of responses, the query, batching, and executions
      of the loop. *)

From Stdlib Require Import ZArith Zbitwise List String Ascii Bool Lia Permutation.
Import ListNotations.
Open Scope string_scope.
Open Scope list_scope.
Open Scope Z_scope.

(** ** Go strings

    A Go [string] is a sequence of bytes; [String.string] is exactly that
    (an [ascii] is eight bits). *)

Definition byte_val (c : ascii) : Z := Z.of_N (N_of_ascii c).
Definition byte_of (z : Z) : ascii := ascii_of_N (Z.to_N z).

Definition bytes := list ascii.
Definition to_bytes (s : string) : bytes := list_ascii_of_string s.
Definition of_bytes (l : bytes) : string := string_of_list_ascii l.

(** The double quote and the backslash, written by code point. *)
Definition dquote : ascii := byte_of 0x22.
Definition backslash : ascii := byte_of 0x5C.

(** ** Errors

    Go's [error] is an interface; the program only ever tests it against
    [nil] and logs it.  One constructor per origin the program can see. *)

Inductive error : Type :=
| UnsupportedTypeError (kind : string)   (* encoding/json: value cannot be encoded *)
| UrlError (op url msg : string)          (* *url.Error: url.Parse and httpClient.Do *)
| RequestError (msg : string)             (* http.NewRequestWithContext, other than the URL *)
| SqlError (msg : string)                 (* database/sql: query, scan or iteration *)
| ErrorString (msg : string).             (* errors.New *)

(** The failure kinds of the dispatcher, by the call that produced the
    error: encoding the payload, building or sending the request, or a
    response outside the success range. *)
Inductive ErrorKind : Type :=
| SerializationError
| TransportError
| DeliveryError
| QueryError.

Definition classify (e : error) : ErrorKind :=
  match e with
  | UnsupportedTypeError _ => SerializationError
  | UrlError _ _ _ => TransportError
  | RequestError _ => TransportError
  | SqlError _ => QueryError
  | ErrorString _ => DeliveryError
  end.

(** ** The status table

    The columns the query of [Unpropagated] names. *)

Record StatusRecord : Type := {
  external_id : string;
  propagated : bool;
  propagation_attempts : Z
}.

Definition Store := list StatusRecord.

(** ** unicode/utf8

    [utf8.DecodeRuneInString], used by the JSON string encoder. *)

Module utf8.

Definition RuneError : Z := 0xFFFD.
Definition RuneSelf : Z := 0x80.
Definition UTFMax : nat := 4.

(** The table [first]: information about the first byte of a sequence. *)
Definition first (b : Z) : Z :=
  if b <? 0x80 then 0xF0        (* as: ASCII *)
  else if b <? 0xC2 then 0xF1   (* xx: invalid *)
  else if b <? 0xE0 then 0x02   (* s1 *)
  else if b =? 0xE0 then 0x13   (* s2 *)
  else if b <? 0xED then 0x03   (* s3 *)
  else if b =? 0xED then 0x23   (* s4 *)
  else if b <? 0xF0 then 0x03   (* s3 *)
  else if b =? 0xF0 then 0x34   (* s5 *)
  else if b <? 0xF4 then 0x04   (* s6 *)
  else if b =? 0xF4 then 0x44   (* s7 *)
  else 0xF1.                    (* xx *)

Definition locb : Z := 0x80.
Definition hicb : Z := 0xBF.

(** The table [acceptRanges], indexed by the high nibble of [first]. *)
Definition acceptRanges (i : Z) : Z * Z :=
  if i =? 1 then (0xA0, hicb)
  else if i =? 2 then (locb, 0x9F)
  else if i =? 3 then (0x90, hicb)
  else if i =? 4 then (locb, 0x8F)
  else (locb, hicb).

Definition maskx : Z := 0x3F.
Definition mask2 : Z := 0x1F.
Definition mask3 : Z := 0x0F.
Definition mask4 : Z := 0x07.

Definition at_ (s : bytes) (i : nat) : Z := byte_val (nth i s zero).

Definition DecodeRuneInString (s : bytes) : Z * nat :=
  let n := List.length s in
  if (n <? 1)%nat then (RuneError, 0%nat) else
  let s0 := at_ s 0 in
  let x := first s0 in
  if 0xF0 <=? x then
    (* the mask trick: all ones exactly when x is xx (its low bit is set) *)
    ((if Z.testbit x 0 then RuneError else s0), 1%nat)
  else
  let sz := Z.to_nat (Z.land x 7) in
  let accept := acceptRanges (Z.shiftr x 4) in
  if (n <? sz)%nat then (RuneError, 1%nat) else
  let s1 := at_ s 1 in
  if (s1 <? fst accept) || (snd accept <? s1) then (RuneError, 1%nat) else
  if (sz <=? 2)%nat then
    (Z.lor (Z.shiftl (Z.land s0 mask2) 6) (Z.land s1 maskx), 2%nat)
  else
  let s2 := at_ s 2 in
  if (s2 <? locb) || (hicb <? s2) then (RuneError, 1%nat) else
  if (sz <=? 3)%nat then
    (Z.lor (Z.lor (Z.shiftl (Z.land s0 mask3) 12) (Z.shiftl (Z.land s1 maskx) 6))
           (Z.land s2 maskx), 3%nat)
  else
  let s3 := at_ s 3 in
  if (s3 <? locb) || (hicb <? s3) then (RuneError, 1%nat) else
  (Z.lor (Z.lor (Z.lor (Z.shiftl (Z.land s0 mask4) 18) (Z.shiftl (Z.land s1 maskx) 12))
                (Z.shiftl (Z.land s2 maskx) 6))
         (Z.land s3 maskx), 4%nat).

Definition rune1Max : Z := 0x7F.
Definition rune2Max : Z := 0x7FF.
Definition rune3Max : Z := 0xFFFF.
Definition MaxRune : Z := 0x10FFFF.
Definition surrogateMin : Z := 0xD800.
Definition surrogateMax : Z := 0xDFFF.

Definition tx : Z := 0x80.
Definition t2 : Z := 0xC0.
Definition t3 : Z := 0xE0.
Definition t4 : Z := 0xF0.

(** Conversion of an integer to [byte]: its low eight bits. *)
Definition byte (z : Z) : ascii := byte_of (Z.land z 0xFF).

Definition encode3 (r : Z) : bytes :=
  [byte (Z.lor t3 (Z.shiftr r 12));
   byte (Z.lor tx (Z.land (Z.shiftr r 6) maskx));
   byte (Z.lor tx (Z.land r maskx))].

(** [utf8.EncodeRune]: the bytes written for a rune; a rune out of
    range or a surrogate half is written as [RuneError]. *)
Definition EncodeRune (r : Z) : bytes :=
  if (0 <=? r) && (r <=? rune1Max) then [byte r]
  else if (0 <=? r) && (r <=? rune2Max) then
    [byte (Z.lor t2 (Z.shiftr r 6)); byte (Z.lor tx (Z.land r maskx))]
  else if (r <? 0) || (MaxRune <? r) || ((surrogateMin <=? r) && (r <=? surrogateMax)) then
    encode3 RuneError
  else if r <=? rune3Max then encode3 r
  else
    [byte (Z.lor t4 (Z.shiftr r 18));
     byte (Z.lor tx (Z.land (Z.shiftr r 12) maskx));
     byte (Z.lor tx (Z.land (Z.shiftr r 6) maskx));
     byte (Z.lor tx (Z.land r maskx))].

(** A string is valid UTF-8 when decoding it rune by rune never meets an
    encoding error (which is what [utf8.ValidString] reports). *)
Fixpoint valid_loop (fuel : nat) (src : bytes) : bool :=
  match fuel, src with
  | O, _ => true
  | _, [] => true
  | S fuel', b :: rest =>
    if byte_val b <? RuneSelf then valid_loop fuel' rest
    else
      let '(c, size) := DecodeRuneInString (firstn UTFMax src) in
      if (c =? RuneError) && (size =? 1)%nat then false
      else valid_loop fuel' (skipn size src)
  end.

Definition Valid (s : string) : bool :=
  valid_loop (List.length (to_bytes s)) (to_bytes s).

End utf8.

(** ** encoding/json

    [json.Marshal] walks a value by reflection.  The values below are the
    kinds this development needs: the ones the payload is made of and
    kinds the encoder refuses (the only way [Marshal] can fail on a
    struct without custom marshalers). *)

Module json.

#[warnings="-register-all"]
Inductive Value : Type :=
| VBool (b : bool)
| VString (s : string)
| VChan
| VFunc
| VStruct (fields : list (string * Value)).   (* JSON key, field value *)

Definition hex (d : Z) : ascii :=
  nth (Z.to_nat d) (to_bytes "0123456789abcdef") zero.

(** [htmlSafeSet]: the ASCII bytes written without escaping when HTML
    escaping is on (as it is for [Marshal]). *)
Definition htmlSafeSet (b : Z) : bool :=
  (0x20 <=? b) && (b <? 0x80) &&
  negb ((b =? 0x22) || (b =? 0x26) || (b =? 0x3C) || (b =? 0x3E) || (b =? 0x5C)).

(** The escape written for an ASCII byte outside [htmlSafeSet] (the
    short forms for backspace and form feed are those of Go 1.22 and
    later; earlier releases write them as [\u0008] and [\u000c]). *)
Definition escape_ascii (b : ascii) : bytes :=
  let v := byte_val b in
  if (v =? 0x5C) || (v =? 0x22) then [backslash; b]
  else if v =? 0x08 then backslash :: to_bytes "b"
  else if v =? 0x0C then backslash :: to_bytes "f"
  else if v =? 0x0A then backslash :: to_bytes "n"
  else if v =? 0x0D then backslash :: to_bytes "r"
  else if v =? 0x09 then backslash :: to_bytes "t"
  else backslash :: to_bytes "u00" ++ [hex (Z.shiftr v 4); hex (Z.land v 0xF)].

(** The loop of [appendString]: one iteration per rune of [src].  The
    fuel bounds the number of iterations; every iteration consumes at
    least one byte, so [length src] is enough. *)
Fixpoint appendString_loop (fuel : nat) (src : bytes) : bytes :=
  match fuel, src with
  | O, _ => []
  | _, [] => []
  | S fuel', b :: rest =>
    if byte_val b <? utf8.RuneSelf then
      (if htmlSafeSet (byte_val b) then [b] else escape_ascii b)
        ++ appendString_loop fuel' rest
    else
      let '(c, size) := utf8.DecodeRuneInString (firstn utf8.UTFMax src) in
      if (c =? utf8.RuneError) && (size =? 1)%nat then
        backslash :: to_bytes "ufffd" ++ appendString_loop fuel' (skipn size src)
      else if (c =? 0x2028) || (c =? 0x2029) then
        backslash :: to_bytes "u202" ++ [hex (Z.land c 0xF)]
          ++ appendString_loop fuel' (skipn size src)
      else
        firstn size src ++ appendString_loop fuel' (skipn size src)
  end.

Definition appendString (src : string) : bytes :=
  [dquote] ++ appendString_loop (List.length (to_bytes src)) (to_bytes src) ++ [dquote].

(** The encoder proper.  A struct is written as its fields in
    declaration order, [,]-separated, each as ["key":value]. *)
Fixpoint encode (v : Value) : bytes + error :=
  match v with
  | VBool b => inl (to_bytes (if b then "true" else "false"))
  | VString s => inl (appendString s)
  | VChan => inr (UnsupportedTypeError "chan")
  | VFunc => inr (UnsupportedTypeError "func")
  | VStruct fields =>
    let fix encode_fields (first : bool) (fs : list (string * Value)) : bytes + error :=
      match fs with
      | [] => inl []
      | (k, fv) :: fs' =>
        match encode fv with
        | inr e => inr e
        | inl ev =>
          match encode_fields false fs' with
          | inr e => inr e
          | inl rest =>
            inl ((if first then [] else to_bytes ",")
                   ++ appendString k ++ to_bytes ":" ++ ev ++ rest)
          end
        end
      end in
    match encode_fields true fields with
    | inr e => inr e
    | inl body => inl (to_bytes "{" ++ body ++ to_bytes "}")
    end
  end.

(** [json.Marshal]: the bytes and a nil error, or nil bytes and the error. *)
Definition Marshal (v : Value) : string * option error :=
  match encode v with
  | inl b => (of_bytes b, None)
  | inr e => (EmptyString, Some e)
  end.

End json.

(** ** JSON texts, read

    The meaning of a JSON text (RFC 8259) of the one shape the program
    writes: an object with a single member whose value is a string.
    White space may stand between the tokens; inside a string every
    escape of the grammar is read, except an escaped surrogate half. *)

Module jsontext.

Definition hex_digit (c : ascii) : option Z :=
  let v := byte_val c in
  if (0x30 <=? v) && (v <=? 0x39) then Some (v - 0x30)
  else if (0x61 <=? v) && (v <=? 0x66) then Some (v - 0x61 + 10)
  else if (0x41 <=? v) && (v <=? 0x46) then Some (v - 0x41 + 10)
  else None.

Definition hex4 (a b c d : ascii) : option Z :=
  match hex_digit a, hex_digit b, hex_digit c, hex_digit d with
  | Some x3, Some x2, Some x1, Some x0 => Some (((x3 * 16 + x2) * 16 + x1) * 16 + x0)
  | _, _, _, _ => None
  end.

(** The two-character escapes. *)
Definition simple_escape (e : ascii) : option ascii :=
  let v := byte_val e in
  if (v =? 0x22) || (v =? 0x5C) || (v =? 0x2F) then Some e
  else if v =? 0x62 then Some (byte_of 0x08)
  else if v =? 0x66 then Some (byte_of 0x0C)
  else if v =? 0x6E then Some (byte_of 0x0A)
  else if v =? 0x72 then Some (byte_of 0x0D)
  else if v =? 0x74 then Some (byte_of 0x09)
  else None.

Definition prepend (pre : bytes) (r : option (bytes * bytes)) : option (bytes * bytes) :=
  match r with
  | Some (content, rest) => Some (pre ++ content, rest)
  | None => None
  end.

(** The characters of a string after its opening quote: the string
    denoted, and what follows the closing quote. *)
Fixpoint string_body (l : bytes) : option (bytes * bytes) :=
  match l with
  | [] => None
  | c :: rest =>
    if byte_val c =? 0x22 then Some ([], rest)
    else if byte_val c =? 0x5C then
      match rest with
      | [] => None
      | e :: rest1 =>
        if byte_val e =? 0x75 then
          match rest1 with
          | h3 :: h2 :: h1 :: h0 :: rest2 =>
            match hex4 h3 h2 h1 h0 with
            | Some r =>
              if (utf8.surrogateMin <=? r) && (r <=? utf8.surrogateMax) then None
              else prepend (utf8.EncodeRune r) (string_body rest2)
            | None => None
            end
          | _ => None
          end
        else
          match simple_escape e with
          | Some b => prepend [b] (string_body rest1)
          | None => None
          end
      end
    else if byte_val c <? 0x20 then None
    else prepend [c] (string_body rest)
  end.

Fixpoint skip_ws (l : bytes) : bytes :=
  match l with
  | c :: rest =>
    if existsb (Z.eqb (byte_val c)) [0x20; 0x09; 0x0A; 0x0D] then skip_ws rest else l
  | [] => []
  end.

Definition expect (c : Z) (l : bytes) : option bytes :=
  match skip_ws l with
  | c' :: rest => if byte_val c' =? c then Some rest else None
  | [] => None
  end.

Definition string_literal (l : bytes) : option (bytes * bytes) :=
  match expect 0x22 l with
  | Some rest => string_body rest
  | None => None
  end.

(** [{ "key" : "value" }]: the key and the value. *)
Definition object1 (text : string) : option (string * string) :=
  match expect 0x7B (to_bytes text) with
  | None => None
  | Some l1 =>
    match string_literal l1 with
    | None => None
    | Some (key, l2) =>
      match expect 0x3A l2 with
      | None => None
      | Some l3 =>
        match string_literal l3 with
        | None => None
        | Some (value, l4) =>
          match expect 0x7D l4 with
          | None => None
          | Some l5 =>
            match skip_ws l5 with
            | [] => Some (of_bytes key, of_bytes value)
            | _ :: _ => None
            end
          end
        end
      end
    end
  end.

End jsontext.

(** [JobStatusUpdate] contains the data POSTed to the apps service. *)
Record JobStatusUpdate : Type := { UUID : string }.

(** What reflection sees of a [JobStatusUpdate]: a struct with one string
    field, tagged [json:"uuid"]. *)
Definition reflect_JobStatusUpdate (jsu : JobStatusUpdate) : json.Value :=
  json.VStruct [("uuid", json.VString (UUID jsu))].

(** ** net/textproto and net/http

    The request the program builds and what the client answers. *)

Module http.

(** [isTokenTable]: the bytes allowed in a header name and in a method. *)
Definition validHeaderFieldByte (c : ascii) : bool :=
  let v := byte_val c in
  ((0x30 <=? v) && (v <=? 0x39)) || ((0x41 <=? v) && (v <=? 0x5A))
  || ((0x61 <=? v) && (v <=? 0x7A))
  || existsb (Z.eqb v)
       [0x21; 0x23; 0x24; 0x25; 0x26; 0x27; 0x2A; 0x2B; 0x2D; 0x2E; 0x5E; 0x5F; 0x60; 0x7C; 0x7E].

(** The canonicalising loop: upper case at the start and after each
    dash, lower case elsewhere. *)
Fixpoint canonical_loop (upper : bool) (a : bytes) : bytes :=
  match a with
  | [] => []
  | c :: rest =>
    let v := byte_val c in
    let c' :=
      if upper && (0x61 <=? v) && (v <=? 0x7A) then byte_of (v - 0x20)
      else if negb upper && (0x41 <=? v) && (v <=? 0x5A) then byte_of (v + 0x20)
      else c in
    c' :: canonical_loop (byte_val c' =? 0x2D) rest
  end.

(** [textproto.CanonicalMIMEHeaderKey]: a key with a byte outside the
    token set is returned unchanged. *)
Definition CanonicalMIMEHeaderKey (s : string) : string :=
  if forallb validHeaderFieldByte (to_bytes s)
  then of_bytes (canonical_loop true (to_bytes s))
  else s.

(** [http.Header] is a [map[string][]string]. *)
Definition Header := list (string * list string).

Definition Header_Set (h : Header) (key value : string) : Header :=
  let k := CanonicalMIMEHeaderKey key in
  (k, [value]) :: filter (fun kv => negb (String.eqb (fst kv) k)) h.

Definition Header_Get (h : Header) (key : string) : string :=
  let k := CanonicalMIMEHeaderKey key in
  match find (fun kv => String.eqb (fst kv) k) h with
  | Some (_, v :: _) => v
  | _ => EmptyString
  end.

Record Request : Type := {
  Method : string;
  URL : string;
  Hdr : Header;
  Body : string
}.

Record Response : Type := {
  Status : string;
  StatusCode : Z
}.

Definition MethodPost : string := "POST".

(** What the network side does: the part of [url.Parse] after its test
    for control bytes (its message when it rejects the URL before the
    fragment, and the message of [setFragment] when it rejects the
    fragment), and the client's round trip, which yields a response or
    an error.  A round trip that never returns is no value of this
    function: it is a goroutine whose return is not among the steps
    taken (see [step]). *)
Record Net : Type := {
  url_syntax_error : string -> option string;
  url_fragment_error : string -> option string;
  round_trip : Request -> Response + string
}.

Definition validMethod (method : string) : bool :=
  (0 <? Z.of_nat (String.length method)) && forallb validHeaderFieldByte (to_bytes method).

(** [stringContainsCTLByte] of net/url. *)
Definition stringContainsCTLByte (s : string) : bool :=
  existsb (fun c => (byte_val c <? 0x20) || (byte_val c =? 0x7F)) (to_bytes s).

(** [strings.Cut s "#"]: the text before the first [#] and the text
    after it. *)
Fixpoint cut_fragment (a : bytes) : bytes * bytes :=
  match a with
  | [] => ([], [])
  | c :: rest =>
    if byte_val c =? 0x23 then ([], rest)
    else let '(u, frag) := cut_fragment rest in (c :: u, frag)
  end.

(** [url.Parse]: the fragment is cut off first, so that the test for
    control bytes sees the text before it only; an error there names
    that text, an error of the fragment the whole URL.  The URL that is
    accepted stands for itself. *)
Definition url_Parse (net : Net) (rawURL : string) : string + error :=
  let '(u, frag) := cut_fragment (to_bytes rawURL) in
  if stringContainsCTLByte (of_bytes u) then
    inr (UrlError "parse" (of_bytes u) "net/url: invalid control character in URL")
  else
    match url_syntax_error net (of_bytes u) with
    | Some msg => inr (UrlError "parse" (of_bytes u) msg)
    | None =>
      match frag with
      | [] => inl rawURL
      | _ :: _ =>
        match url_fragment_error net (of_bytes frag) with
        | Some msg => inr (UrlError "parse" rawURL msg)
        | None => inl rawURL
        end
      end
    end.

(** [http.NewRequestWithContext]; the context the program passes comes
    from a tracer and is never nil, so that test is left out. *)
Definition NewRequestWithContext (net : Net) (method url : string) (body : string)
  : Request + error :=
  let method := if String.eqb method EmptyString then "GET" else method in
  if negb (validMethod method) then
    inr (RequestError ("net/http: invalid method " ++ method))
  else
    match url_Parse net url with
    | inr e => inr e
    | inl u => inl {| Method := method; URL := u; Hdr := []; Body := body |}
    end.

Definition with_header (req : Request) (key value : string) : Request :=
  {| Method := Method req; URL := URL req;
     Hdr := Header_Set (Hdr req) key value; Body := Body req |}.

(** [strings.ToLower] on ASCII. *)
Definition ToLower (a : bytes) : bytes :=
  map (fun c => let v := byte_val c in
                if (0x41 <=? v) && (v <=? 0x5A) then byte_of (v + 0x20) else c) a.

(** [urlErrorOp]: the method, all but its first letter in lower case. *)
Definition urlErrorOp (method : string) : string :=
  match to_bytes method with
  | [] => EmptyString
  | c :: rest => of_bytes (c :: ToLower rest)
  end.

(** [Client.Do]: the response, or a [*url.Error] for the failure.  What
    the client does on the wire for one call (connection reuse,
    redirects) is not looked into. *)
Definition Client_Do (net : Net) (req : Request) : Response + error :=
  match round_trip net req with
  | inl resp => inl resp
  | inr msg => inr (UrlError (urlErrorOp (Method req)) (URL req) msg)
  end.

End http.

(** ** database/sql

    The handle the program holds, and what the server answers to the one
    statement the program sends:
<<
    select distinct external_id
      from job_status_updates
     where propagated = 'false'
       and propagation_attempts < $1
>> *)

Module sql.

(** [*sql.DB]: the handle obtained from the connection URI. *)
Record DB : Type := { dsn : string }.

(** How an exchange with the server can go wrong. *)
Inductive Fault : Type :=
| NoFault
| QueryFault (msg : string)              (* QueryContext itself fails *)
| ScanFault (row : nat) (msg : string)   (* Scan of that row fails *)
| RowsFault (row : nat) (msg : string).  (* iteration breaks off after that many rows *)

(** The server: the table, the order in which it chooses to return the
    rows of a [select distinct], and the fault of this exchange. *)
Record Server : Type := {
  table : Store;
  row_order : list string -> list string;
  fault : Fault
}.

(** [*sql.Rows]: what each [Next]/[Scan] pair yields, and what [Err]
    reports once [Next] has returned false. *)
Record Rows : Type := {
  fetched : list (string + error);
  rows_Err : option error
}.

Definition eligible (maxRetries : Z) (r : StatusRecord) : bool :=
  negb (propagated r) && (propagation_attempts r <? maxRetries).

Definition select_distinct (srv : Server) (maxRetries : Z) : list string :=
  row_order srv (nodup string_dec (map external_id (filter (eligible maxRetries) (table srv)))).

Definition QueryContext (srv : Server) (d : DB) (maxRetries : Z) : Rows + error :=
  let ids := select_distinct srv maxRetries in
  match fault srv with
  | NoFault => inl {| fetched := map inl ids; rows_Err := None |}
  | QueryFault msg => inr (SqlError msg)
  | ScanFault n msg =>
    inl {| fetched := map inl (firstn n ids)
                      ++ match skipn n ids with
                         | [] => []
                         | _ :: tl => inr (SqlError msg) :: map inl tl
                         end;
           rows_Err := None |}
  | RowsFault n msg =>
    inl {| fetched := map inl (firstn n ids); rows_Err := Some (SqlError msg) |}
  end.

End sql.

(** ** Effects

    What the program does to the outside world, in the order it does it. *)

Inductive Level : Type := InfoLevel | ErrorLevel | FatalLevel.

(** One constructor per log statement of the program, with its arguments. *)
Inductive LogEntry : Type :=
| JobStatusInPropagate (uuid : string) (jsu : JobStatusUpdate)
| MessageToPropagate (msg : string)
| SendingJobStatus (uri uuid : string)
| ErrorSendingJobStatus (uri uuid : string) (err : error)
| ResponseFrom (uri uuid status : string)
| ErrorValue (err : error).

Inductive Effect : Type :=
| Log (lvl : Level) (entry : LogEntry)
| HttpDo (req : http.Request) (res : http.Response + error)
| BodyClose
| SqlQuery (d : sql.DB) (maxRetries : Z)
| SqlExec (d : sql.DB) (update : Store -> Store)
| RowsClose
| SpanStart (name : string)
| SpanEnd.

(** The table after an effect.  A query reads; only a statement executed
    on the handle writes.  What the apps service does on receiving a
    request is not an action of this program. *)
Definition store_after_effect (st : Store) (e : Effect) : Store :=
  match e with
  | SqlExec _ update => update st
  | _ => st
  end.

Definition store_after (effects : list Effect) (st : Store) : Store :=
  fold_left store_after_effect effects st.

Definition touches_db (e : Effect) : bool :=
  match e with
  | SqlQuery _ _ | SqlExec _ _ | RowsClose => true
  | _ => false
  end.

Definition is_request (e : Effect) : bool :=
  match e with
  | HttpDo _ _ => true
  | _ => false
  end.

(** A computation: the effects performed, then the result. *)
Definition Eff (A : Type) : Type := list Effect * A.

Definition ret {A : Type} (a : A) : Eff A := ([], a).

Definition bind {A B : Type} (m : Eff A) (k : A -> Eff B) : Eff B :=
  let '(e1, a) := m in
  let '(e2, b) := k a in
  (e1 ++ e2, b).

Definition emit (e : Effect) : Eff unit := ([e], tt).

(** Go's [defer]: the effect happens when the function returns. *)
Definition defer {A : Type} (e : Effect) (m : Eff A) : Eff A :=
  let '(es, a) := m in (es ++ [e], a).

Declare Scope eff_scope.
Delimit Scope eff_scope with eff.
Notation "x <- m ;; k" := (bind m (fun x => k))
  (at level 61, m at next level, right associativity) : eff_scope.
Notation "m ;; k" := (bind m (fun _ => k))
  (at level 61, right associativity) : eff_scope.
Open Scope eff_scope.

Definition effects {A : Type} (m : Eff A) : list Effect := fst m.
Definition result {A : Type} (m : Eff A) : A := snd m.

Definition log_Infof (entry : LogEntry) : Eff unit := emit (Log InfoLevel entry).
Definition log_Error (err : error) : Eff unit := emit (Log ErrorLevel (ErrorValue err)).
Definition log_Errorf (entry : LogEntry) : Eff unit := emit (Log ErrorLevel entry).

(** ** The program *)

(** The loop over the rows in [Unpropagated]. *)
Fixpoint scan_rows (rows : list (string + error)) (retval : list string)
  : list string + error :=
  match rows with
  | [] => inl retval
  | inl extID :: rest => scan_rows rest (retval ++ [extID])
  | inr err :: _ => inr err
  end.

(** [Unpropagated] returns the UUIDs for jobs that have steps that haven't
    been propagated yet but haven't passed their retry limit.  A nil slice
    is the empty list. *)
Definition Unpropagated (srv : sql.Server) (d : sql.DB) (maxRetries : Z)
  : Eff (list string * option error) :=
  emit (SqlQuery d maxRetries) ;;
  match sql.QueryContext srv d maxRetries with
  | inr err => ret ([], Some err)
  | inl rows =>
    defer RowsClose
      match scan_rows (sql.fetched rows) [] with
      | inr err => ret ([], Some err)
      | inl retval => ret (retval, sql.rows_Err rows)
      end
  end.

(** [Propagator] pushes job status updates to the apps service. *)
Record Propagator : Type := {
  db : sql.DB;
  appsURI : string
}.

(** [NewPropagator]; the pointer it returns is [None] when nil. *)
Definition NewPropagator (d : sql.DB) (appsURI : string)
  : option Propagator * option error :=
  let err : option error := None in
  match err with
  | Some e => (None, Some e)
  | None => (Some {| db := d; appsURI := appsURI |}, None)
  end.

(** [Propagate] pushes the update to the apps service. *)
Definition Propagate (net : http.Net) (p : Propagator) (uuid : string)
  : Eff (option error) :=
  let jsu := {| UUID := uuid |} in
  log_Infof (JobStatusInPropagate (UUID jsu) jsu) ;;
  let '(msg, err) := json.Marshal (reflect_JobStatusUpdate jsu) in
  match err with
  | Some e => log_Error e ;; ret (Some e)
  | None =>
    let buf := msg in
    match err with
    | Some e => log_Error e ;; ret (Some e)
    | None =>
      log_Infof (MessageToPropagate msg) ;;
      log_Infof (SendingJobStatus (appsURI p) (UUID jsu)) ;;
      match http.NewRequestWithContext net http.MethodPost (appsURI p) buf with
      | inr e =>
        log_Errorf (ErrorSendingJobStatus (appsURI p) (UUID jsu) e) ;;
        ret (Some e)
      | inl req =>
        let req := http.with_header req "content-type" "application/json" in
        let res := http.Client_Do net req in
        emit (HttpDo req res) ;;
        match res with
        | inr e =>
          log_Errorf (ErrorSendingJobStatus (appsURI p) (UUID jsu) e) ;;
          ret (Some e)
        | inl resp =>
          defer BodyClose
            (log_Infof (ResponseFrom (appsURI p) (UUID jsu) (http.Status resp)) ;;
             if (http.StatusCode resp <? 200) || (299 <? http.StatusCode resp)
             then ret (Some (ErrorString "bad response"))
             else ret None)
        end
      end
    end
  end.

(** *** The batching loop of [main]
<<
    for *batchSize < len(unpropped) {
        unpropped, batches = unpropped[*batchSize:], append(batches, unpropped[0:*batchSize])
    }
    batches = append(batches, unpropped)
>>
    The loop need not terminate (a batch size of zero never shortens
    [unpropped]), so it runs on fuel; slicing with a negative bound
    panics. *)

Inductive BatchResult : Type :=
| Batches (batches : list (list string))
| SlicePanic
| OutOfFuel.

Fixpoint batch_loop (fuel : nat) (batchSize : Z)
    (unpropped : list string) (batches : list (list string)) : BatchResult :=
  match fuel with
  | O => OutOfFuel
  | S fuel' =>
    if batchSize <? Z.of_nat (List.length unpropped) then
      if batchSize <? 0 then SlicePanic
      else batch_loop fuel' batchSize
             (skipn (Z.to_nat batchSize) unpropped)
             (batches ++ [firstn (Z.to_nat batchSize) unpropped])
    else Batches (batches ++ [unpropped])
  end.

Definition Batcher (fuel : nat) (batchSize : Z) (unpropped : list string) : BatchResult :=
  batch_loop fuel batchSize unpropped [].

(** *** The goroutine started for each job of a batch *)

Inductive TaskEnd : Type :=
| Returned    (* the function returned; the deferred wg.Done() has run *)
| Panicked.   (* nil pointer dereference: the process dies *)

Definition propagator_goroutine (net : http.Net) (d : sql.DB) (maxRetries : Z)
    (appsURI jobExtID : string) : Eff TaskEnd :=
  emit (SpanStart "propagator goroutine") ;;
  defer SpanEnd
    (let '(proper, err) := NewPropagator d appsURI in
     match err with Some e => log_Error e | None => ret tt end ;;
     match proper with
     | None => ret Panicked
     | Some p =>
       err <- Propagate net p jobExtID ;;
       match err with Some e => log_Error e | None => ret tt end ;;
       ret Returned
     end).

(** *** The loop of [main]

    The main goroutine is at one of a few places of the loop; the
    goroutines it has started and that have not yet returned are in
    flight.  A step is a step of the main goroutine, the return of one
    goroutine in flight, or the failure of the diagnostics listener
    started before the loop, whose goroutine ends the process with
    [log.Fatal] when it cannot listen or stops serving.  Each query is
    answered by the server as it is at that moment: the table is
    written to by other programs between cycles.  A goroutine runs
    against the network as it finds it, and what it does is recorded
    when it returns. *)

Record Config : Type := {
  cfg_db : sql.DB;
  cfg_appsURI : string;
  cfg_maxRetries : Z;
  cfg_batchSize : Z
}.

Inductive Pc : Type :=
| AtCycleStart                                                   (* top of [for {}] *)
| AtBatches (batches : list (list string))                       (* [range batches]: batches left *)
| AtJobs (batch : list string) (batches : list (list string))    (* [range batch]: jobs left; [wg.Wait()] when none *)
| Exited (code : Z).                                             (* the process is gone *)

(** A goroutine in flight, with the cycle and the batch it was started in. *)
Record Task : Type := {
  t_cycle : nat;
  t_batch : nat;
  t_jobExtID : string
}.

Record State : Type := {
  pc : Pc;
  wg : Z;                  (* the counter of the WaitGroup *)
  in_flight : list Task;
  cycle : nat;             (* cycles begun before this one *)
  batch : nat              (* batches begun in this cycle *)
}.

Definition initial : State :=
  {| pc := AtCycleStart; wg := 0; in_flight := []; cycle := 0; batch := 0 |}.

Inductive Label : Type :=
| LQuery (c : nat) (srv : sql.Server) (unpropped : list string) (es : list Effect)
| LFatal (c : nat) (srv : sql.Server) (err : error) (es : list Effect)
| LBatchPanic (c : nat) (srv : sql.Server)
| LBatch (c b : nat) (jobs : list string)
| LGo (t : Task)
| LReturn (t : Task) (es : list Effect)
| LTaskPanic (t : Task) (es : list Effect)
| LBarrier (c b : nat)
| LCycleEnd (c : nat)
| LListenerFatal (msg : string).

Definition fatal (err : error) : list Effect := [SpanEnd; Log FatalLevel (ErrorValue err)].

(** A query that went through is followed by the batching loop; where
    that loop does not end (batch size zero, jobs to batch) the main
    goroutine takes no further step: the loop then appends to [batches]
    for as long as the process has memory, and how the process ends
    when it has none is not among these steps.  The steps say what can
    happen next, not that it does: a goroutine whose request never
    comes back (the client has no timeout, the contexts no deadline) is
    one whose return is never taken. *)
Inductive step (cfg : Config) : State -> Label -> State -> Prop :=
| step_query : forall s srv es unpropped fuel batches,
    pc s = AtCycleStart ->
    Unpropagated srv (cfg_db cfg) (cfg_maxRetries cfg) = (es, (unpropped, None)) ->
    Batcher fuel (cfg_batchSize cfg) unpropped = Batches batches ->
    step cfg s (LQuery (cycle s) srv unpropped (SpanStart "propagation loop" :: es))
      {| pc := AtBatches batches; wg := wg s; in_flight := in_flight s;
         cycle := cycle s; batch := 0 |}
| step_query_fatal : forall s srv es unpropped err,
    pc s = AtCycleStart ->
    Unpropagated srv (cfg_db cfg) (cfg_maxRetries cfg) = (es, (unpropped, Some err)) ->
    step cfg s (LFatal (cycle s) srv err (SpanStart "propagation loop" :: es ++ fatal err))
      {| pc := Exited 1; wg := wg s; in_flight := [];
         cycle := cycle s; batch := batch s |}
| step_batch_panic : forall s srv es unpropped fuel,
    pc s = AtCycleStart ->
    Unpropagated srv (cfg_db cfg) (cfg_maxRetries cfg) = (es, (unpropped, None)) ->
    Batcher fuel (cfg_batchSize cfg) unpropped = SlicePanic ->
    step cfg s (LBatchPanic (cycle s) srv)
      {| pc := Exited 2; wg := wg s; in_flight := [];
         cycle := cycle s; batch := batch s |}
| step_batch : forall s jobs batches,
    pc s = AtBatches (jobs :: batches) ->
    step cfg s (LBatch (cycle s) (S (batch s)) jobs)
      {| pc := AtJobs jobs batches; wg := wg s; in_flight := in_flight s;
         cycle := cycle s; batch := S (batch s) |}
| step_go : forall s jobExtID jobs batches,
    pc s = AtJobs (jobExtID :: jobs) batches ->
    let t := {| t_cycle := cycle s; t_batch := batch s; t_jobExtID := jobExtID |} in
    step cfg s (LGo t)
      {| pc := AtJobs jobs batches; wg := wg s + 1; in_flight := t :: in_flight s;
         cycle := cycle s; batch := batch s |}
| step_return : forall s net t before after es,
    (forall code, pc s <> Exited code) ->
    in_flight s = before ++ t :: after ->
    propagator_goroutine net (cfg_db cfg) (cfg_maxRetries cfg) (cfg_appsURI cfg) (t_jobExtID t)
      = (es, Returned) ->
    step cfg s (LReturn t es)
      {| pc := pc s; wg := wg s - 1; in_flight := before ++ after;
         cycle := cycle s; batch := batch s |}
| step_task_panic : forall s net t before after es,
    (forall code, pc s <> Exited code) ->
    in_flight s = before ++ t :: after ->
    propagator_goroutine net (cfg_db cfg) (cfg_maxRetries cfg) (cfg_appsURI cfg) (t_jobExtID t)
      = (es, Panicked) ->
    step cfg s (LTaskPanic t es)
      {| pc := Exited 2; wg := wg s; in_flight := [];
         cycle := cycle s; batch := batch s |}
| step_barrier : forall s batches,
    pc s = AtJobs [] batches ->
    wg s = 0 ->
    step cfg s (LBarrier (cycle s) (batch s))
      {| pc := AtBatches batches; wg := wg s; in_flight := in_flight s;
         cycle := cycle s; batch := batch s |}
| step_cycle_end : forall s,
    pc s = AtBatches [] ->
    step cfg s (LCycleEnd (cycle s))
      {| pc := AtCycleStart; wg := wg s; in_flight := in_flight s;
         cycle := S (cycle s); batch := 0 |}
| step_listener_fatal : forall s msg,
    (forall code, pc s <> Exited code) ->
    step cfg s (LListenerFatal msg)
      {| pc := Exited 1; wg := wg s; in_flight := [];
         cycle := cycle s; batch := batch s |}.

(** Executions, with the labels in the order the steps were taken. *)
Inductive exec (cfg : Config) : State -> list Label -> State -> Prop :=
| exec_nil : forall s, exec cfg s [] s
| exec_snoc : forall s tr s' l s'',
    exec cfg s tr s' -> step cfg s' l s'' -> exec cfg s (tr ++ [l]) s''.

(** ** Notions used in the statements *)

(** The bytes [Propagate] sends for a job. *)
Definition payload (uuid : string) : string :=
  fst (json.Marshal (reflect_JobStatusUpdate {| UUID := uuid |})).

(** The request [Propagate] hands to the client. *)
Definition notification (p : Propagator) (uuid : string) : http.Request :=
  {| http.Method := "POST";
     http.URL := appsURI p;
     http.Hdr := [("Content-Type", ["application/json"])];
     http.Body := payload uuid |}.

(** An identifier made of bytes the encoder copies as they are. *)
Definition plain (s : string) : bool :=
  forallb (fun c => json.htmlSafeSet (byte_val c)) (to_bytes s).

Definition prologue (p : Propagator) (uuid : string) : list Effect :=
  [Log InfoLevel (JobStatusInPropagate uuid {| UUID := uuid |});
   Log InfoLevel (MessageToPropagate (payload uuid));
   Log InfoLevel (SendingJobStatus (appsURI p) uuid)].


(** The HTTP exchanges among the effects of a computation. *)
Definition requests {A : Type} (m : Eff A) : list Effect := filter is_request (effects m).

(** ** Sample environments *)

(** An apps service that answers every request with the given status. *)
Definition net_status (code : Z) : http.Net :=
  {| http.url_syntax_error := fun _ => None;
     http.url_fragment_error := fun _ => None;
     http.round_trip := fun _ => inl {| http.Status := "status"; http.StatusCode := code |} |}.

(** An apps service that cannot be reached. *)
Definition net_refused : http.Net :=
  {| http.url_syntax_error := fun _ => None;
     http.url_fragment_error := fun _ => None;
     http.round_trip := fun _ => inr "dial tcp: connection refused" |}.

Definition sample_db : sql.DB := {| sql.dsn := "postgres://de@db/de" |}.

Definition sample_propagator : Propagator :=
  {| db := sample_db; appsURI := "http://apps/callbacks" |}.

(** A callback URI with a line feed after it, as a configuration file
    may well hold. *)
Definition propagator_bad_uri : Propagator :=
  {| db := sample_db; appsURI := String.append "http://apps/callbacks" (String (byte_of 10) EmptyString) |}.

(** A table in which job [a] has three status updates (one of them out
    of retries), job [b] is propagated and job [c] is waiting; the
    server answers in reverse order. *)
Definition sample_server : sql.Server :=
  {| sql.table :=
       [ {| external_id := "a"; propagated := false; propagation_attempts := 0 |};
         {| external_id := "b"; propagated := true; propagation_attempts := 0 |};
         {| external_id := "a"; propagated := false; propagation_attempts := 5 |};
         {| external_id := "c"; propagated := false; propagation_attempts := 2 |};
         {| external_id := "a"; propagated := false; propagation_attempts := 1 |} ];
     sql.row_order := @rev string;
     sql.fault := sql.NoFault |}.

(** ** Notions about executions *)

(** A goroutine of the batch the main goroutine is working on. *)
Definition of_current_batch (s : State) (t : Task) : Prop :=
  t_cycle t = cycle s /\ t_batch t = batch s.

(** The jobs of the cycle the main goroutine has not started yet. *)
Definition jobs_left (p : Pc) : list string :=
  match p with
  | AtJobs jobs batches => jobs ++ List.concat batches
  | AtBatches batches => List.concat batches
  | _ => []
  end.

(** The server whose answer a step of the main goroutine acts on. *)
Definition answered_by (l : Label) : option sql.Server :=
  match l with
  | LQuery _ srv _ _ => Some srv
  | LFatal _ srv _ _ => Some srv
  | LBatchPanic _ srv => Some srv
  | _ => None
  end.

(** The cycle in which a step of the main goroutine does work of a cycle
    (querying, batching, starting a goroutine). *)
Definition work_of_cycle (l : Label) : option nat :=
  match l with
  | LQuery c _ _ _ => Some c
  | LBatch c _ _ => Some c
  | LGo t => Some (t_cycle t)
  | _ => None
  end.

Definition within (B : Z) (chunk : list string) : Prop :=
  Z.of_nat (List.length chunk) <= B.

(** The WaitGroup counts the goroutines in flight. *)
Definition counted (s : State) : Prop :=
  wg s = Z.of_nat (List.length (in_flight s)).

(** What holds of every state the program reaches. *)
Definition invariant (cfg : Config) (s : State) : Prop :=
  Forall (of_current_batch s) (in_flight s)
  /\ match pc s with
     | AtCycleStart => counted s /\ in_flight s = [] /\ batch s = 0%nat
     | AtBatches batches =>
       counted s /\ in_flight s = [] /\ Forall (within (cfg_batchSize cfg)) batches
     | AtJobs jobs batches =>
       counted s
       /\ Z.of_nat (List.length (in_flight s) + List.length jobs) <= cfg_batchSize cfg
       /\ Forall (within (cfg_batchSize cfg)) batches
     | Exited _ => in_flight s = []
     end.

(** The propagator every goroutine builds. *)
Definition propagator_of (cfg : Config) : Propagator :=
  {| db := cfg_db cfg; appsURI := cfg_appsURI cfg |}.

Definition goroutine_of (cfg : Config) (net : http.Net) (t : Task) : Eff TaskEnd :=
  propagator_goroutine net (cfg_db cfg) (cfg_maxRetries cfg) (cfg_appsURI cfg) (t_jobExtID t).

Definition sample_config : Config :=
  {| cfg_db := sample_db; cfg_appsURI := "http://apps/callbacks";
     cfg_maxRetries := 3; cfg_batchSize := 1 |}.

(** A database that cannot be reached. *)
Definition server_down : sql.Server :=
  {| sql.table := []; sql.row_order := fun l => l;
     sql.fault := sql.QueryFault "dial tcp: connection refused" |}.

(** A sample run: the query returns jobs [a] and [c], the batch size is
    one, and the goroutine of job [a] has just been started. *)
Definition task_a : Task := {| t_cycle := 0; t_batch := 1; t_jobExtID := "a" |}.

Definition sample_trace : list Label :=
  [ LQuery 0 sample_server ["a"; "c"]
      [SpanStart "propagation loop"; SqlQuery sample_db 3; RowsClose];
    LBatch 0 1 ["a"];
    LGo task_a ].

Definition sample_state : State :=
  {| pc := AtJobs [] [["c"]]; wg := 1; in_flight := [task_a]; cycle := 0; batch := 1 |}.

(** A run that ends at once: the database cannot be reached. *)
Definition fatal_label : Label :=
  LFatal 0 server_down (SqlError "dial tcp: connection refused")
    [SpanStart "propagation loop"; SqlQuery sample_db 3; SpanEnd;
     Log FatalLevel (ErrorValue (SqlError "dial tcp: connection refused"))].

Definition exited_state : State :=
  {| pc := Exited 1; wg := 0; in_flight := []; cycle := 0; batch := 0 |}.

(** The main goroutine is inside a cycle. *)
Definition in_cycle (p : Pc) : Prop :=
  match p with
  | AtBatches _ | AtJobs _ _ => True
  | _ => False
  end.

(** Every return recorded in the trace is that of the goroutine run
    against the network behaviour chosen for it. *)
Definition returns_by (cfg : Config) (nets : Task -> http.Net) (tr : list Label) : Prop :=
  forall t es, In (LReturn t es) tr -> es = effects (goroutine_of cfg (nets t) t).

(** The goroutine of this job is started in the trace, in cycle [c]. *)
Definition started (c : nat) (tr : list Label) (job : string) : Prop :=
  exists t, In (LGo t) tr /\ t_jobExtID t = job /\ t_cycle t = c.

(** An identifier that is not valid UTF-8: the single byte [0xFF]. *)
Definition id_not_utf8 : string := String (byte_of 0xFF) EmptyString.

(** The replacement character U+FFFD, in UTF-8. *)
Definition replacement_character : string := of_bytes (utf8.EncodeRune utf8.RuneError).

(** ** Counting in a trace *)

Definition Task_eq_dec : forall t1 t2 : Task, {t1 = t2} + {t1 <> t2}.
Proof.
  decide equality; [apply string_dec|apply Nat.eq_dec|apply Nat.eq_dec].
Defined.

Definition same_task (t1 t2 : Task) : nat :=
  if Task_eq_dec t1 t2 then 1%nat else 0%nat.

(** How many times the goroutine [t] is started in the trace. *)
Fixpoint starts (t : Task) (tr : list Label) : nat :=
  match tr with
  | [] => 0%nat
  | LGo t' :: tr' => (same_task t' t + starts t tr')%nat
  | _ :: tr' => starts t tr'
  end.

(** How many times it returns. *)
Fixpoint returns (t : Task) (tr : list Label) : nat :=
  match tr with
  | [] => 0%nat
  | LReturn t' _ :: tr' => (same_task t' t + returns t tr')%nat
  | _ :: tr' => returns t tr'
  end.

(** ** Further notions *)

(** The log entries written at error level. *)
Definition is_error_log (e : Effect) : bool :=
  match e with
  | Log ErrorLevel _ => true
  | _ => false
  end.

Definition error_entries (es : list Effect) : list Effect := filter is_error_log es.

(** A byte that is neither a control character nor one of [<], [>], [&]. *)
Definition inert_byte (c : ascii) : Prop :=
  0x20 <= byte_val c /\ byte_val c <> 0x3C /\ byte_val c <> 0x3E /\ byte_val c <> 0x26.

Definition inert_byteb (c : ascii) : bool :=
  let v := byte_val c in
  (0x20 <=? v) && negb ((v =? 0x3C) || (v =? 0x3E) || (v =? 0x26)).

(** ** Further notions about executions *)

(** The jobs for which a goroutine is started in cycle [c], in the order
    of the starts. *)
Fixpoint started_jobs (c : nat) (tr : list Label) : list string :=
  match tr with
  | [] => []
  | LGo t :: tr' =>
    if Nat.eqb (t_cycle t) c then t_jobExtID t :: started_jobs c tr'
    else started_jobs c tr'
  | _ :: tr' => started_jobs c tr'
  end.

(** What a step does to the outside world. *)
Definition label_effects (l : Label) : list Effect :=
  match l with
  | LQuery _ _ _ es => es
  | LFatal _ _ _ es => es
  | LReturn _ es => es
  | LTaskPanic _ es => es
  | LCycleEnd _ => [SpanEnd]
  | _ => []
  end.

Definition trace_effects (tr : list Label) : list Effect :=
  List.concat (map label_effects tr).

Definition writes (e : Effect) : bool :=
  match e with
  | SqlExec _ _ => true
  | _ => false
  end.

(** The process is running. *)
Definition alive (s : State) : Prop := forall code, pc s <> Exited code.


(** The sample run, continued to the end of its cycle: job [a] fails,
    job [c] is started and succeeds. *)
Definition task_c : Task := {| t_cycle := 0; t_batch := 2; t_jobExtID := "c" |}.

Definition sample_cycle : list Label :=
  sample_trace
  ++ [ LReturn task_a (effects (goroutine_of sample_config net_refused task_a));
       LBarrier 0 1;
       LBatch 0 2 ["c"];
       LGo task_c;
       LReturn task_c (effects (goroutine_of sample_config (net_status 200) task_c));
       LBarrier 0 2;
       LCycleEnd 0 ].

Definition next_cycle_state : State :=
  {| pc := AtCycleStart; wg := 0; in_flight := []; cycle := 1; batch := 0 |}.

(** ** Start-up: [main] up to its loop

    What [main] does between [flag.Parse] and the loop: the version and
    configuration checks, the choice of the database URI, and the
    connection.  The flags are taken as parsed; the configuration file
    and the database are what the host makes of them. *)

Record Flags : Type := {
  flag_config : string;      (* --config, default "" *)
  flag_version : bool;       (* --version, default false *)
  flag_db : string;          (* --db, default "" *)
  flag_retries : Z;          (* --retries, default 3 *)
  flag_batch_size : Z        (* --batch-size, default 1000 *)
}.

(** [*viper.Viper]: the settings by key, the most recent first.  A key
    that is not set reads as the empty string. *)
Definition Viper := list (string * string).

Definition GetString (cfg : Viper) (key : string) : string :=
  match find (fun kv => String.eqb (fst kv) key) cfg with
  | Some (_, value) => value
  | None => EmptyString
  end.

Definition Viper_Set (cfg : Viper) (key value : string) : Viper := (key, value) :: cfg.

(** The calls of start-up that leave the program, with the error
    message of each when it fails. *)
Record Host : Type := {
  InitDefaults : string -> Viper + string;   (* configurate.InitDefaults(path, defaults) *)
  NewDefaultConnector : option string;       (* dbutil.NewDefaultConnector("1m") *)
  Connect : string -> option string;         (* connector.Connect("postgres", uri) *)
  Ping : string -> option string             (* db.Ping() on the handle for that URI *)
}.

Inductive Boot : Type :=
| BootTracer                                 (* otelutils.TracerProviderFromEnv *)
| BootUsage (msg : option string)            (* flag.Parse: the error, if any, and the usage *)
| BootVersion                                (* version.AppVersion() *)
| BootPrint (line : string)                  (* fmt.Println *)
| BootDefaults                               (* flag.PrintDefaults() *)
| BootLog (lvl : Level) (msg : string)
| BootReadConfig (path : string)
| BootNewConnector
| BootConnect (uri : string)
| BootPing (uri : string)
| BootListener.                              (* go func() { net.Listen ... }() *)

Inductive Started : Type :=
| Halt (code : Z)                            (* os.Exit(code), or log.Fatal: code 1 *)
| Loop (cfg : Config) (settings : Viper).    (* the loop is entered *)

Definition boot (f : Flags) (h : Host) : list Boot * Started :=
  if flag_version f then ([BootVersion], Halt 0)
  else if String.eqb (flag_config f) EmptyString then
    ([BootPrint "Error: --config must be set."; BootDefaults], Halt (-1))
  else
    match InitDefaults h (flag_config f) with
    | inr msg =>
      ([BootReadConfig (flag_config f); BootLog ErrorLevel msg], Halt (-1))
    | inl cfg =>
      let es1 := [BootReadConfig (flag_config f); BootLog InfoLevel "Done reading config."] in
      let '(dbURI, cfg) :=
        if String.eqb (flag_db f) EmptyString
        then (GetString cfg "db.uri", cfg)
        else (flag_db f, Viper_Set cfg "db.uri" (flag_db f)) in
      let appsURI := GetString cfg "apps.callbacks_uri" in
      let es2 := es1 ++ [BootLog InfoLevel "Connecting to the database..."; BootNewConnector] in
      match NewDefaultConnector h with
      | Some msg => (es2 ++ [BootLog FatalLevel msg], Halt 1)
      | None =>
        let es3 := es2 ++ [BootConnect dbURI] in
        match Connect h dbURI with
        | Some msg => (es3 ++ [BootLog FatalLevel msg], Halt 1)
        | None =>
          let es4 := es3 ++ [BootPing dbURI] in
          match Ping h dbURI with
          | Some msg => (es4 ++ [BootLog FatalLevel msg], Halt 1)
          | None =>
            (es4 ++ [BootLog InfoLevel "Connected to the database"; BootListener],
             Loop {| cfg_db := {| sql.dsn := dbURI |};
                     cfg_appsURI := appsURI;
                     cfg_maxRetries := flag_retries f;
                     cfg_batchSize := flag_batch_size f |} cfg)
          end
        end
      end
    end.

(** What [flag.Parse] makes of the command line.  The flag set of the
    program is the default one, which exits on error: after a flag that
    is not defined or a value that does not parse it prints the error
    and the usage and ends the program with status 2; after [-h] or
    [-help] it prints the usage and ends it with status 0. *)
Inductive Parsed : Type :=
| ParseOk (f : Flags)
| ParseHelp
| ParseBad (msg : string).

(** [main] from its first line to the loop.  The tracer provider is
    set up first, with a handler that logs the error it is given and
    ends the program: [tracer] is the error the provider hands to it
    while it is set up, if it does.  Then the command line is parsed,
    and [boot] follows.  The deferred calls never run: every way out is
    [os.Exit], directly or through [log.Fatal]. *)
Definition startup (tracer : option string) (args : Parsed) (h : Host)
  : list Boot * Started :=
  match tracer with
  | Some msg => ([BootTracer; BootLog FatalLevel msg], Halt 1)
  | None =>
    match args with
    | ParseBad msg => ([BootTracer; BootUsage (Some msg)], Halt 2)
    | ParseHelp => ([BootTracer; BootUsage None], Halt 0)
    | ParseOk f => let '(es, end_) := boot f h in (BootTracer :: es, end_)
    end
  end.

(** Whether start-up reaches for the database. *)
Definition contacts_db (e : Boot) : bool :=
  match e with
  | BootNewConnector | BootConnect _ | BootPing _ => true
  | _ => false
  end.

(** A host on which everything works, with a configuration file that
    names a database and the callback URI. *)
Definition sample_settings : Viper :=
  [("db.uri", "postgres://de@db/de"); ("apps.callbacks_uri", "http://apps/callbacks")].

Definition sample_host : Host :=
  {| InitDefaults := fun _ => inl sample_settings;
     NewDefaultConnector := None;
     Connect := fun _ => None;
     Ping := fun _ => None |}.

Definition sample_flags (db : string) : Flags :=
  {| flag_config := "/etc/jobservices.yml"; flag_version := false; flag_db := db;
     flag_retries := 3; flag_batch_size := 1000 |}.

(** A host whose database does not answer. *)
Definition host_db_down : Host :=
  {| InitDefaults := fun _ => inl sample_settings;
     NewDefaultConnector := None;
     Connect := fun _ => Some "dial tcp: connection refused";
     Ping := fun _ => None |}.
(** * Properties *)

(** ** The payload *)

Lemma Marshal_JobStatusUpdate : forall jsu : JobStatusUpdate,
  json.Marshal (reflect_JobStatusUpdate jsu)
  = (of_bytes (to_bytes "{" ++ json.appendString "uuid" ++ to_bytes ":"
               ++ json.appendString (UUID jsu) ++ to_bytes "}"), None).
Proof.
  intros [uuid]. unfold json.Marshal, reflect_JobStatusUpdate. cbn [json.encode UUID].
  rewrite app_nil_r. reflexivity.
Qed.


Lemma htmlSafeSet_ascii : forall b, json.htmlSafeSet b = true -> (b <? utf8.RuneSelf) = true.
Proof.
  intros b H. unfold json.htmlSafeSet in H. unfold utf8.RuneSelf.
  apply andb_prop in H as [H _]. apply andb_prop in H as [_ H]. exact H.
Qed.

Lemma appendString_loop_plain : forall (l : bytes) (fuel : nat),
  (List.length l <= fuel)%nat ->
  forallb (fun c => json.htmlSafeSet (byte_val c)) l = true ->
  json.appendString_loop fuel l = l.
Proof.
  induction l as [|b l IH]; intros fuel Hlen Hsafe.
  - destruct fuel; reflexivity.
  - destruct fuel as [|fuel]; [cbn in Hlen; lia|].
    cbn in Hsafe. apply andb_prop in Hsafe as [Hb Hl].
    cbn [json.appendString_loop]. rewrite (htmlSafeSet_ascii _ Hb), Hb.
    cbn [app]. f_equal. apply IH; [cbn in Hlen; lia | exact Hl].
Qed.

Lemma of_to_bytes : forall s, of_bytes (to_bytes s) = s.
Proof. exact string_of_list_ascii_of_string. Qed.

Lemma to_of_bytes : forall l, to_bytes (of_bytes l) = l.
Proof. exact list_ascii_of_string_of_list_ascii. Qed.

Lemma to_bytes_app : forall s1 s2, to_bytes (s1 ++ s2)%string = to_bytes s1 ++ to_bytes s2.
Proof.
  induction s1 as [|c s1 IH]; intros s2; cbn; [reflexivity|].
  unfold to_bytes in IH. now rewrite IH.
Qed.

Lemma payload_plain : forall uuid,
  plain uuid = true ->
  payload uuid
  = ("{" ++ String dquote "uuid" ++ String dquote ":"
     ++ String dquote uuid ++ String dquote "}")%string.
Proof.
  intros uuid Hp. unfold payload. rewrite Marshal_JobStatusUpdate. cbn [fst UUID].
  unfold json.appendString at 2.
  rewrite appendString_loop_plain by (auto; exact Hp).
  match goal with |- _ = ?rhs => rewrite <- (of_to_bytes rhs) end.
  f_equal. cbn. rewrite to_bytes_app, <- app_assoc. reflexivity.
Qed.

(** ** The payload as a JSON text *)

(** *** Bytes and bits *)

Lemma byte_val_range : forall b, 0 <= byte_val b < 256.
Proof.
  intros b. unfold byte_val. pose proof (N_ascii_bounded b) as H. lia.
Qed.

Lemma byte_of_val : forall b, byte_of (byte_val b) = b.
Proof.
  intros b. unfold byte_of, byte_val. rewrite N2Z.id. apply ascii_N_embedding.
Qed.

Lemma lor_shifted : forall hi lo n,
  0 <= n -> 0 <= lo < 2 ^ n -> Z.lor (hi * 2 ^ n) lo = hi * 2 ^ n + lo.
Proof.
  intros hi lo n Hn Hlo.
  rewrite <- (Z.add_lor_land (hi * 2 ^ n) lo).
  assert (Z.land (hi * 2 ^ n) lo = 0) as ->; [|lia].
  apply Z.bits_inj'. intros i Hi. rewrite Z.land_spec, Z.bits_0.
  destruct (Z.lt_ge_cases i n).
  - rewrite Z.mul_pow2_bits_low by lia. reflexivity.
  - rewrite <- (Z.mod_small lo (2 ^ n)) by lia.
    rewrite Z.mod_pow2_bits_high by lia. apply andb_false_r.
Qed.

(** The classes of first bytes above ASCII. *)
Lemma first_cases : forall s0, 0x80 <= s0 ->
  utf8.first s0 = 0xF1
  \/ (utf8.first s0 = 0x02 /\ 0xC2 <= s0 <= 0xDF)
  \/ (utf8.first s0 = 0x13 /\ s0 = 0xE0)
  \/ (utf8.first s0 = 0x03 /\ 0xE1 <= s0 <= 0xEF /\ s0 <> 0xED)
  \/ (utf8.first s0 = 0x23 /\ s0 = 0xED)
  \/ (utf8.first s0 = 0x34 /\ s0 = 0xF0)
  \/ (utf8.first s0 = 0x04 /\ 0xF1 <= s0 <= 0xF3)
  \/ (utf8.first s0 = 0x44 /\ s0 = 0xF4).
Proof.
  intros s0 H. unfold utf8.first.
  repeat match goal with
         | |- context [if ?c then _ else _] =>
           let E := fresh "E" in
           destruct c eqn:E;
           [first [apply Z.ltb_lt in E | apply Z.eqb_eq in E]
           |first [apply Z.ltb_ge in E | apply Z.eqb_neq in E]]
         end; try lia; intuition lia.
Qed.

Lemma land_3F : forall s, Z.land s 0x3F = s mod 64.
Proof. intros s. change 0x3F with (Z.ones 6). rewrite Z.land_ones by lia. reflexivity. Qed.
Lemma land_1F : forall s, Z.land s 0x1F = s mod 32.
Proof. intros s. change 0x1F with (Z.ones 5). rewrite Z.land_ones by lia. reflexivity. Qed.
Lemma land_0F : forall s, Z.land s 0x0F = s mod 16.
Proof. intros s. change 0x0F with (Z.ones 4). rewrite Z.land_ones by lia. reflexivity. Qed.
Lemma land_07 : forall s, Z.land s 0x07 = s mod 8.
Proof. intros s. change 0x07 with (Z.ones 3). rewrite Z.land_ones by lia. reflexivity. Qed.

(** The rune of a sequence, in arithmetic. *)
Lemma rune2 : forall s0 s1,
  Z.lor (Z.shiftl (Z.land s0 utf8.mask2) 6) (Z.land s1 utf8.maskx)
  = (s0 mod 32) * 64 + s1 mod 64.
Proof.
  intros. unfold utf8.mask2, utf8.maskx. rewrite land_1F, land_3F.
  rewrite Z.shiftl_mul_pow2 by lia. rewrite lor_shifted; [reflexivity|lia|].
  change (2 ^ 6) with 64. apply Z.mod_pos_bound. lia.
Qed.

Lemma rune3 : forall s0 s1 s2,
  Z.lor (Z.lor (Z.shiftl (Z.land s0 utf8.mask3) 12) (Z.shiftl (Z.land s1 utf8.maskx) 6))
        (Z.land s2 utf8.maskx)
  = (s0 mod 16) * 4096 + (s1 mod 64) * 64 + s2 mod 64.
Proof.
  intros. unfold utf8.mask3, utf8.maskx. rewrite land_0F, !land_3F.
  rewrite !Z.shiftl_mul_pow2 by lia.
  pose proof (Z.mod_pos_bound s1 64 ltac:(lia)).
  pose proof (Z.mod_pos_bound s2 64 ltac:(lia)).
  rewrite (lor_shifted (s0 mod 16) ((s1 mod 64) * 2 ^ 6) 12) by lia.
  replace (s0 mod 16 * 2 ^ 12 + s1 mod 64 * 2 ^ 6)
    with ((s0 mod 16 * 64 + s1 mod 64) * 2 ^ 6) by lia.
  rewrite lor_shifted by lia. lia.
Qed.

Lemma rune4 : forall s0 s1 s2 s3,
  Z.lor (Z.lor (Z.lor (Z.shiftl (Z.land s0 utf8.mask4) 18) (Z.shiftl (Z.land s1 utf8.maskx) 12))
               (Z.shiftl (Z.land s2 utf8.maskx) 6))
        (Z.land s3 utf8.maskx)
  = (s0 mod 8) * 262144 + (s1 mod 64) * 4096 + (s2 mod 64) * 64 + s3 mod 64.
Proof.
  intros. unfold utf8.mask4, utf8.maskx. rewrite land_07, !land_3F.
  rewrite !Z.shiftl_mul_pow2 by lia.
  pose proof (Z.mod_pos_bound s1 64 ltac:(lia)).
  pose proof (Z.mod_pos_bound s2 64 ltac:(lia)).
  pose proof (Z.mod_pos_bound s3 64 ltac:(lia)).
  rewrite (lor_shifted (s0 mod 8) ((s1 mod 64) * 2 ^ 12) 18) by lia.
  replace (s0 mod 8 * 2 ^ 18 + s1 mod 64 * 2 ^ 12)
    with ((s0 mod 8 * 64 + s1 mod 64) * 2 ^ 12) by lia.
  rewrite (lor_shifted _ ((s2 mod 64) * 2 ^ 6) 12) by lia.
  replace ((s0 mod 8 * 64 + s1 mod 64) * 2 ^ 12 + s2 mod 64 * 2 ^ 6)
    with (((s0 mod 8 * 64 + s1 mod 64) * 64 + s2 mod 64) * 2 ^ 6) by lia.
  rewrite lor_shifted by lia. lia.
Qed.

Lemma byte_eq : forall b z, byte_val b = z -> b = byte_of z.
Proof. intros b z <-. symmetry. apply byte_of_val. Qed.

Ltac split_if H :=
  match type of H with
  | context [if ?c then _ else _] =>
    let E := fresh "E" in destruct c eqn:E
  end.

(** *** Decoding a sequence of several bytes *)

Ltac close_consts H x :=
  let sz := eval vm_compute in (Z.to_nat (Z.land x 7)) in
  change (Z.to_nat (Z.land x 7)) with sz in H;
  let acc := eval vm_compute in (utf8.acceptRanges (Z.shiftr x 4)) in
  change (utf8.acceptRanges (Z.shiftr x 4)) with acc in H;
  let f := eval vm_compute in (0xF0 <=? x) in
  change (0xF0 <=? x) with f in H;
  cbn [fst snd List.length firstn Nat.ltb Nat.leb utf8.at_ nth] in H;
  unfold utf8.locb, utf8.hicb in H.

Ltac range_facts :=
  repeat match goal with
         | H : (_ || _) = false |- _ => apply orb_false_elim in H as [? ?]
         | H : (_ <? _) = false |- _ => apply Z.ltb_ge in H
         end.

Ltac branches H :=
  repeat (split_if H; [try (injection H as <- <-; discriminate)|]).

(** A sequence decoded without error is made of two to four bytes
    above ASCII, and the line and paragraph separators are the
    sequences [EncodeRune] writes for them. *)
Lemma DecodeRune_multibyte : forall b0 rest c size,
  0x80 <= byte_val b0 ->
  utf8.DecodeRuneInString (firstn utf8.UTFMax (b0 :: rest)) = (c, size) ->
  (c =? utf8.RuneError) && (size =? 1)%nat = false ->
  (2 <= size)%nat /\ (size <= List.length (b0 :: rest))%nat
  /\ Forall (fun b => 0x80 <= byte_val b) (firstn size (b0 :: rest))
  /\ (c = 0x2028 \/ c = 0x2029 -> firstn size (b0 :: rest) = utf8.EncodeRune c).
Proof.
  intros b0 rest c size H0 Hdec Hok.
  pose proof (byte_val_range b0) as R0.
  unfold utf8.DecodeRuneInString, utf8.UTFMax in Hdec.
  destruct (first_cases (byte_val b0) H0) as
    [Hx|[[Hx R]|[[Hx R]|[[Hx R]|[[Hx R]|[[Hx R]|[[Hx R]|[Hx R]]]]]]]];
    destruct rest as [|b1 [|b2 [|b3 rest]]];
    unfold utf8.at_ in Hdec; cbn [List.length firstn nth] in Hdec; cbv zeta in Hdec;
    rewrite Hx in Hdec.
  all: match type of Hx with _ = ?x => close_consts Hdec x end.
  all: rewrite ?rune2, ?rune3, ?rune4 in Hdec.
  all: try (injection Hdec as <- <-; discriminate).
  all: branches Hdec.
  all: try (injection Hdec as <- <-).
  all: range_facts.
  all: repeat match goal with b : ascii |- _ =>
         lazymatch goal with
         | _ : 0 <= byte_val b < 256 |- _ => fail
         | _ => pose proof (byte_val_range b)
         end end.
  all: split; [lia|]; split; [cbn [List.length]; lia|]; split;
       [cbn [firstn]; repeat constructor; lia|].
  all: intros Hc.
  all: try (exfalso; Z.div_mod_to_equations; lia).
  all: destruct Hc as [Hc|Hc]; rewrite Hc; cbn [firstn].
  all: match goal with
       | |- context [utf8.EncodeRune 8232] =>
         assert (Hb : byte_val b0 = 0xE2 /\ byte_val b1 = 0x80 /\ byte_val b2 = 0xA8)
           by (Z.div_mod_to_equations; lia)
       | |- context [utf8.EncodeRune 8233] =>
         assert (Hb : byte_val b0 = 0xE2 /\ byte_val b1 = 0x80 /\ byte_val b2 = 0xA9)
           by (Z.div_mod_to_equations; lia)
       end.
  all: destruct Hb as (Hb0 & Hb1 & Hb2);
       rewrite (byte_eq _ _ Hb0), (byte_eq _ _ Hb1), (byte_eq _ _ Hb2); reflexivity.
Qed.

(** *** Reading back what the encoder writes *)

Lemma prepend_app : forall p1 p2 r,
  jsontext.prepend p1 (jsontext.prepend p2 r) = jsontext.prepend (p1 ++ p2) r.
Proof. intros p1 p2 [[content rest]|]; cbn; [rewrite app_assoc|]; reflexivity. Qed.

Lemma copy_byte : forall c tail,
  0x20 <= byte_val c -> byte_val c <> 0x22 -> byte_val c <> 0x5C ->
  jsontext.string_body (c :: tail) = jsontext.prepend [c] (jsontext.string_body tail).
Proof.
  intros c tail Hlo Hq Hb. cbn [jsontext.string_body].
  apply Z.eqb_neq in Hq, Hb. rewrite Hq, Hb.
  replace (byte_val c <? 0x20) with false by (symmetry; apply Z.ltb_ge; lia).
  reflexivity.
Qed.

Lemma copy_bytes : forall pre tail,
  Forall (fun b => 0x80 <= byte_val b) pre ->
  jsontext.string_body (pre ++ tail) = jsontext.prepend pre (jsontext.string_body tail).
Proof.
  induction pre as [|b pre IH]; intros tail H.
  - cbn [app]. destruct (jsontext.string_body tail) as [[? ?]|]; reflexivity.
  - inversion H; subst. cbn [app]. rewrite copy_byte by lia.
    rewrite IH by assumption. apply prepend_app.
Qed.

Lemma escape_read : forall b tail,
  (byte_val b <? 0x80) = true -> json.htmlSafeSet (byte_val b) = false ->
  jsontext.string_body (json.escape_ascii b ++ tail)
  = jsontext.prepend [b] (jsontext.string_body tail).
Proof.
  intros [[] [] [] [] [] [] [] []] tail Hlt Hsafe;
    try discriminate Hlt; try discriminate Hsafe; reflexivity.
Qed.

Lemma separator_read : forall c more tail,
  c = 0x2028 \/ c = 0x2029 ->
  jsontext.string_body
    ((backslash :: to_bytes "u202" ++ [json.hex (Z.land c 0xF)] ++ more) ++ tail)
  = jsontext.prepend (utf8.EncodeRune c) (jsontext.string_body (more ++ tail)).
Proof. intros c more tail [->| ->]; reflexivity. Qed.

Lemma safe_byte : forall b,
  json.htmlSafeSet (byte_val b) = true ->
  0x20 <= byte_val b /\ byte_val b <> 0x22 /\ byte_val b <> 0x5C.
Proof.
  intros b H. unfold json.htmlSafeSet in H.
  apply andb_prop in H as [H Hn]. apply andb_prop in H as [Hlo _].
  apply negb_true_iff in Hn. repeat apply orb_false_elim in Hn as [Hn ?].
  apply Z.leb_le in Hlo. repeat split; try lia; now apply Z.eqb_neq.
Qed.

(** The body of a quoted string, read back, is the string. *)
Lemma string_body_appendString : forall fuel src tail,
  (List.length src <= fuel)%nat ->
  utf8.valid_loop fuel src = true ->
  jsontext.string_body (json.appendString_loop fuel src ++ dquote :: tail)
  = Some (src, tail).
Proof.
  induction fuel as [|fuel IH]; intros src tail Hlen Hvalid.
  - destruct src; [reflexivity|cbn in Hlen; lia].
  - destruct src as [|b rest]; [reflexivity|].
    cbn [json.appendString_loop utf8.valid_loop] in *.
    destruct (byte_val b <? utf8.RuneSelf) eqn:Hascii.
    + assert (Hrest : jsontext.string_body (json.appendString_loop fuel rest ++ dquote :: tail)
                      = Some (rest, tail))
        by (apply IH; [cbn in Hlen; lia|exact Hvalid]).
      rewrite <- app_assoc.
      destruct (json.htmlSafeSet (byte_val b)) eqn:Hsafe.
      * apply safe_byte in Hsafe as (H1 & H2 & H3).
        cbn [app]. rewrite copy_byte by assumption. rewrite Hrest. reflexivity.
      * rewrite escape_read by assumption. rewrite Hrest. reflexivity.
    + destruct (utf8.DecodeRuneInString (firstn utf8.UTFMax (b :: rest))) as [c size] eqn:Hdec.
      destruct ((c =? utf8.RuneError) && (size =? 1)%nat) eqn:Herr; [discriminate|].
      apply Z.ltb_ge in Hascii. unfold utf8.RuneSelf in Hascii.
      destruct (DecodeRune_multibyte b rest c size Hascii Hdec Herr)
        as (Hsize & Hfit & Hhigh & Hsep).
      assert (Hrest : jsontext.string_body
                        (json.appendString_loop fuel (skipn size (b :: rest)) ++ dquote :: tail)
                      = Some (skipn size (b :: rest), tail)).
      { apply IH; [rewrite length_skipn; cbn [List.length] in *; lia|exact Hvalid]. }
      destruct ((c =? 0x2028) || (c =? 0x2029)) eqn:Hc.
      * apply orb_prop in Hc. rewrite !Z.eqb_eq in Hc.
        rewrite (separator_read c _ _ Hc), Hrest. cbn [jsontext.prepend].
        rewrite <- (Hsep Hc), firstn_skipn. reflexivity.
      * rewrite <- app_assoc, copy_bytes by assumption.
        rewrite Hrest. cbn [jsontext.prepend]. rewrite firstn_skipn. reflexivity.
Qed.

Lemma string_literal_appendString : forall s tail,
  utf8.Valid s = true ->
  jsontext.string_literal (json.appendString s ++ tail) = Some (to_bytes s, tail).
Proof.
  intros s tail Hvalid. unfold json.appendString, jsontext.string_literal.
  rewrite <- !app_assoc.
  change (jsontext.expect 0x22 ([dquote] ++ ?x)) with (Some x).
  cbn [app]. apply string_body_appendString; [lia|exact Hvalid].
Qed.

(** The payload of a job is the JSON object with the one member
    [uuid], whose value is the identifier of the job. *)
Lemma object1_payload : forall uuid,
  utf8.Valid uuid = true -> jsontext.object1 (payload uuid) = Some ("uuid", uuid).
Proof.
  intros uuid Hvalid. unfold payload.
  rewrite Marshal_JobStatusUpdate.
  cbn [fst UUID]. unfold jsontext.object1. rewrite to_of_bytes.
  change (jsontext.expect 0x7B (to_bytes "{" ++ ?x)) with (Some x). cbv beta iota.
  rewrite (string_literal_appendString "uuid") by reflexivity.
  change (jsontext.expect 0x3A (to_bytes ":" ++ ?x)) with (Some x). cbv beta iota.
  rewrite (string_literal_appendString uuid) by exact Hvalid.
  cbn. rewrite of_to_bytes. reflexivity.
Qed.

(** ** The shape of a run of [Propagate] *)


Lemma NewRequest_post : forall net url body,
  http.NewRequestWithContext net http.MethodPost url body
  = match http.url_Parse net url with
    | inr e => inr e
    | inl u => inl {| http.Method := "POST"; http.URL := u; http.Hdr := []; http.Body := body |}
    end.
Proof. reflexivity. Qed.

Lemma url_Parse_inl : forall net url u, http.url_Parse net url = inl u -> u = url.
Proof.
  intros net url u. unfold http.url_Parse.
  destruct (http.cut_fragment (to_bytes url)) as [before frag].
  destruct (http.stringContainsCTLByte (of_bytes before)); [discriminate|].
  destruct (http.url_syntax_error net (of_bytes before)); [discriminate|].
  destruct frag as [|c frag]; [congruence|].
  destruct (http.url_fragment_error net (of_bytes (c :: frag))); [discriminate|congruence].
Qed.

Lemma url_Parse_inr : forall net url e,
  http.url_Parse net url = inr e -> exists text msg, e = UrlError "parse" text msg.
Proof.
  intros net url e. unfold http.url_Parse.
  destruct (http.cut_fragment (to_bytes url)) as [before frag].
  destruct (http.stringContainsCTLByte (of_bytes before)).
  - intros [= <-]. eauto.
  - destruct (http.url_syntax_error net (of_bytes before)).
    + intros [= <-]. eauto.
    + destruct frag as [|c frag]; [discriminate|].
      destruct (http.url_fragment_error net (of_bytes (c :: frag))); [|discriminate].
      intros [= <-]. eauto.
Qed.

(** A control byte after the [#] does not make [url.Parse] refuse the
    URL; one before it does. *)
Example control_byte_in_fragment :
  http.url_Parse (net_status 200)
    (String.append "http://apps/callbacks#top" (String (byte_of 10) EmptyString))
  = inl (String.append "http://apps/callbacks#top" (String (byte_of 10) EmptyString))
  /\ http.url_Parse (net_status 200)
       (String.append "http://apps/call" (String (byte_of 10) "backs#top"))
     = inr (UrlError "parse" (String.append "http://apps/call" (String (byte_of 10) "backs"))
              "net/url: invalid control character in URL").
Proof. split; reflexivity. Qed.

(** The three ways a call can go: the URL is refused, the client gets no
    response, the client gets a response. *)
Lemma Propagate_cases : forall net p uuid,
  match http.url_Parse net (appsURI p) with
  | inr e =>
    Propagate net p uuid
    = (prologue p uuid ++ [Log ErrorLevel (ErrorSendingJobStatus (appsURI p) uuid e)], Some e)
  | inl _ =>
    match http.Client_Do net (notification p uuid) with
    | inr e =>
      Propagate net p uuid
      = (prologue p uuid
           ++ [HttpDo (notification p uuid) (inr e);
               Log ErrorLevel (ErrorSendingJobStatus (appsURI p) uuid e)], Some e)
    | inl resp =>
      Propagate net p uuid
      = (prologue p uuid
           ++ [HttpDo (notification p uuid) (inl resp);
               Log InfoLevel (ResponseFrom (appsURI p) uuid (http.Status resp));
               BodyClose],
         if (http.StatusCode resp <? 200) || (299 <? http.StatusCode resp)
         then Some (ErrorString "bad response") else None)
    end
  end.
Proof.
  intros net p uuid. unfold Propagate, notification, prologue, payload.
  rewrite Marshal_JobStatusUpdate. cbn [fst UUID].
  rewrite NewRequest_post.
  destruct (http.url_Parse net (appsURI p)) as [u|e] eqn:Hu.
  - apply url_Parse_inl in Hu. subst u.
    change (http.with_header _ "content-type" "application/json")
      with {| http.Method := "POST"; http.URL := appsURI p;
              http.Hdr := [("Content-Type", ["application/json"])];
              http.Body := of_bytes (to_bytes "{" ++ json.appendString "uuid" ++ to_bytes ":"
                                     ++ json.appendString uuid ++ to_bytes "}") |}.
    destruct (http.Client_Do net _) as [resp|e]; [|reflexivity].
    destruct ((http.StatusCode resp <? 200) || (299 <? http.StatusCode resp)); reflexivity.
  - reflexivity.
Qed.

Lemma In_HttpDo_prologue : forall p uuid req res tail,
  In (HttpDo req res) (prologue p uuid ++ tail) -> In (HttpDo req res) tail.
Proof.
  intros p uuid req res tail H. apply in_app_or in H as [H|H]; [|exact H].
  cbn in H. repeat (destruct H as [H|H]; [discriminate|]). contradiction.
Qed.

(** A response seen by [Propagate] is the one the client returned for
    the notification. *)
Lemma Propagate_response : forall net p uuid req resp,
  In (HttpDo req (inl resp)) (effects (Propagate net p uuid)) ->
  result (Propagate net p uuid)
  = if (http.StatusCode resp <? 200) || (299 <? http.StatusCode resp)
    then Some (ErrorString "bad response") else None.
Proof.
  intros net p uuid req resp Hin.
  pose proof (Propagate_cases net p uuid) as Hc.
  destruct (http.url_Parse net (appsURI p)) as [u|e].
  - destruct (http.Client_Do net (notification p uuid)) as [resp'|e];
      rewrite Hc in Hin |- *; cbn [effects result fst snd] in *;
      apply In_HttpDo_prologue in Hin; cbn in Hin.
    + destruct Hin as [H|[H|[H|[]]]]; try discriminate.
      injection H as _ ->. reflexivity.
    + destruct Hin as [H|[H|[]]]; discriminate.
  - rewrite Hc in Hin. cbn [effects fst] in Hin.
    apply In_HttpDo_prologue in Hin. cbn in Hin. destruct Hin as [H|[]]. discriminate.
Qed.

(** ** Classification of the response *)

(** C1. [Propagate] receives a response exactly when the callback URI
    is accepted and the client returns one for the notification.  For
    every response the client returns, [Propagate] then returns a nil
    error if and only if the status code is between 200 and 299
    inclusive; outside this range it returns the error "bad response",
    a delivery error.  In particular 199 and 300 fail, 200 and 299
    succeed. *)
Theorem Propagate_success_iff_2xx : forall net p uuid u resp,
  http.url_Parse net (appsURI p) = inl u ->
  http.Client_Do net (notification p uuid) = inl resp ->
  In (HttpDo (notification p uuid) (inl resp)) (effects (Propagate net p uuid))
  /\ (forall req resp', In (HttpDo req (inl resp')) (effects (Propagate net p uuid)) ->
                        req = notification p uuid /\ resp' = resp)
  /\ (result (Propagate net p uuid) = None <-> 200 <= http.StatusCode resp <= 299)
  /\ (~ 200 <= http.StatusCode resp <= 299 ->
      result (Propagate net p uuid) = Some (ErrorString "bad response")
      /\ classify (ErrorString "bad response") = DeliveryError)
  /\ (http.StatusCode resp = 199 \/ http.StatusCode resp = 300 ->
      result (Propagate net p uuid) = Some (ErrorString "bad response"))
  /\ (http.StatusCode resp = 200 \/ http.StatusCode resp = 299 ->
      result (Propagate net p uuid) = None).
Proof.
  intros net p uuid u resp Hu Hdo.
  pose proof (Propagate_cases net p uuid) as Hc. rewrite Hu, Hdo in Hc.
  assert (Hin : In (HttpDo (notification p uuid) (inl resp)) (effects (Propagate net p uuid))).
  { rewrite Hc. cbn [effects fst]. apply in_or_app. right. left. reflexivity. }
  split; [exact Hin|]. split.
  - intros req resp' Hin'. rewrite Hc in Hin'. cbn [effects fst] in Hin'.
    apply In_HttpDo_prologue in Hin'. cbn [In] in Hin'.
    destruct Hin' as [H|[H|[H|[]]]]; try discriminate.
    injection H as <- <-. split; reflexivity.
  - rewrite (Propagate_response _ _ _ _ _ Hin).
    destruct (Z.ltb_spec (http.StatusCode resp) 200) as [Hlo|Hlo];
      destruct (Z.ltb_spec 299 (http.StatusCode resp)) as [Hhi|Hhi]; cbn [orb];
      (split; [split; intros Hx; first [discriminate Hx | reflexivity | lia]|]);
      (split; [intros Hx; split; first [reflexivity | exfalso; lia]|]);
      (split; intros [Hx|Hx]; first [reflexivity | exfalso; lia]).
Qed.

(** A server answering 500 to a well-formed notification: the dispatch
    fails; answering 200, 299: it succeeds; 199, 300: it fails. *)
Lemma Propagate_success_iff_2xx_witness :
  (http.url_Parse (net_status 500) (appsURI sample_propagator) = inl "http://apps/callbacks"
   /\ http.Client_Do (net_status 500) (notification sample_propagator "job-a")
      = inl {| http.Status := "status"; http.StatusCode := 500 |}
   /\ result (Propagate (net_status 500) sample_propagator "job-a")
      = Some (ErrorString "bad response"))
  /\ (result (Propagate (net_status 200) sample_propagator "job-a") = None
      <-> 200 <= 200 <= 299)
  /\ result (Propagate (net_status 199) sample_propagator "job-a")
     = Some (ErrorString "bad response")
  /\ result (Propagate (net_status 299) sample_propagator "job-a") = None
  /\ result (Propagate (net_status 300) sample_propagator "job-a")
     = Some (ErrorString "bad response").
Proof.
  split; [split; [reflexivity|split; [reflexivity|]]|split; [|split; [|split]]].
  - destruct (Propagate_success_iff_2xx (net_status 500) sample_propagator "job-a"
                "http://apps/callbacks" {| http.Status := "status"; http.StatusCode := 500 |}
                eq_refl eq_refl) as (_ & _ & _ & Hbad & _ & _).
    apply Hbad. cbn [http.StatusCode]. lia.
  - destruct (Propagate_success_iff_2xx (net_status 200) sample_propagator "job-a"
                "http://apps/callbacks" {| http.Status := "status"; http.StatusCode := 200 |}
                eq_refl eq_refl) as (_ & _ & Hiff & _ & _ & _).
    exact Hiff.
  - destruct (Propagate_success_iff_2xx (net_status 199) sample_propagator "job-a"
                "http://apps/callbacks" {| http.Status := "status"; http.StatusCode := 199 |}
                eq_refl eq_refl) as (_ & _ & _ & _ & Hfail & _).
    apply Hfail. left. reflexivity.
  - destruct (Propagate_success_iff_2xx (net_status 299) sample_propagator "job-a"
                "http://apps/callbacks" {| http.Status := "status"; http.StatusCode := 299 |}
                eq_refl eq_refl) as (_ & _ & _ & _ & _ & Hok).
    apply Hok. right. reflexivity.
  - destruct (Propagate_success_iff_2xx (net_status 300) sample_propagator "job-a"
                "http://apps/callbacks" {| http.Status := "status"; http.StatusCode := 300 |}
                eq_refl eq_refl) as (_ & _ & _ & _ & Hfail & _).
    apply Hfail. right. reflexivity.
Defined.

(** The boundary cases, run. *)
Example status_199_fails :
  result (Propagate (net_status 199) sample_propagator "job-a") = Some (ErrorString "bad response").
Proof. reflexivity. Qed.

Example status_200_succeeds :
  result (Propagate (net_status 200) sample_propagator "job-a") = None.
Proof. reflexivity. Qed.

Example status_299_succeeds :
  result (Propagate (net_status 299) sample_propagator "job-a") = None.
Proof. reflexivity. Qed.

Example status_300_fails :
  result (Propagate (net_status 300) sample_propagator "job-a") = Some (ErrorString "bad response").
Proof. reflexivity. Qed.

(** ** Construction of a propagator *)

(** C9. For every database handle and endpoint URI, [NewPropagator]
    returns a non-nil propagator holding exactly these two values,
    together with a nil error; it never takes its error branch. *)
Theorem NewPropagator_never_fails : forall (d : sql.DB) (uri : string),
  NewPropagator d uri = (Some {| db := d; appsURI := uri |}, None).
Proof. intros d uri. unfold NewPropagator. reflexivity. Qed.

(** ** Serialization *)

(** C10. Encoding the payload of any job identifier succeeds, so
    [Propagate] never returns a serialization error: when it fails, the
    error is a transport error or a delivery error. *)
Theorem Propagate_never_serialization_error : forall net p uuid,
  snd (json.Marshal (reflect_JobStatusUpdate {| UUID := uuid |})) = None
  /\ forall e, result (Propagate net p uuid) = Some e ->
       classify e = TransportError \/ classify e = DeliveryError.
Proof.
  intros net p uuid. split; [now rewrite Marshal_JobStatusUpdate|].
  intros e He. pose proof (Propagate_cases net p uuid) as Hc.
  destruct (http.url_Parse net (appsURI p)) as [u|e'] eqn:Hu.
  - destruct (http.Client_Do net (notification p uuid)) as [resp|e''] eqn:Hdo;
      rewrite Hc in He; cbn [result snd] in He.
    + destruct ((http.StatusCode resp <? 200) || (299 <? http.StatusCode resp));
        [|discriminate]. injection He as <-. right. reflexivity.
    + injection He as <-. unfold http.Client_Do in Hdo.
      destruct (http.round_trip net (notification p uuid)); [discriminate|].
      injection Hdo as <-. left. reflexivity.
  - rewrite Hc in He. cbn [result snd] in He. injection He as <-.
    apply url_Parse_inr in Hu as (text & msg & ->). left. reflexivity.
Qed.

Lemma Propagate_never_serialization_error_witness :
  result (Propagate net_refused sample_propagator "job-a")
    = Some (UrlError "Post" "http://apps/callbacks" "dial tcp: connection refused")
  /\ (classify (UrlError "Post" "http://apps/callbacks" "dial tcp: connection refused")
        = TransportError
      \/ classify (UrlError "Post" "http://apps/callbacks" "dial tcp: connection refused")
        = DeliveryError).
Proof.
  split; [reflexivity|].
  apply (proj2 (Propagate_never_serialization_error net_refused sample_propagator "job-a")).
  reflexivity.
Defined.

(** The encoder does fail on values of other kinds: the error branch of
    [Marshal] is a real one. *)
Example Marshal_chan_fails :
  json.Marshal (json.VStruct [("uuid", json.VString "job-a"); ("done", json.VChan)])
  = (EmptyString, Some (UnsupportedTypeError "chan")).
Proof. reflexivity. Qed.

(** ** The store is left alone *)

Lemma store_after_app : forall es1 es2 st,
  store_after (es1 ++ es2) st = store_after es2 (store_after es1 st).
Proof. intros. unfold store_after. apply fold_left_app. Qed.

Lemma store_after_untouched : forall es st,
  forallb (fun e => negb (touches_db e)) es = true -> store_after es st = st.
Proof.
  induction es as [|e es IH]; intros st H; [reflexivity|].
  cbn in H. apply andb_prop in H as [He Hes].
  unfold store_after. cbn [fold_left]. fold (store_after es (store_after_effect st e)).
  destruct e; cbn in He; try discriminate; cbn [store_after_effect]; now apply IH.
Qed.

Lemma Propagate_no_db_effect : forall net p uuid,
  forallb (fun e => negb (touches_db e)) (effects (Propagate net p uuid)) = true.
Proof.
  intros net p uuid. pose proof (Propagate_cases net p uuid) as Hc.
  destruct (http.url_Parse net (appsURI p)) as [u|e].
  - destruct (http.Client_Do net (notification p uuid)) as [resp|e];
      rewrite Hc; reflexivity.
  - rewrite Hc. reflexivity.
Qed.

(** A statement executed on the handle is what changes the table. *)
Example store_after_exec : forall d : sql.DB,
  store_after [SqlExec d (map (fun r => {| external_id := external_id r;
                                           propagated := true;
                                           propagation_attempts := propagation_attempts r |}))]
              (sql.table sample_server)
  <> sql.table sample_server.
Proof. intros d. discriminate. Qed.

(** C7. Whatever the job and whatever the outcome, [Propagate] performs
    no operation on the database handle, and the table after the call is
    the table before it: it neither sets [propagated] nor increments
    [propagation_attempts]. *)
Theorem Propagate_leaves_store_unchanged : forall net p uuid (st : Store),
  forallb (fun e => negb (touches_db e)) (effects (Propagate net p uuid)) = true
  /\ store_after (effects (Propagate net p uuid)) st = st.
Proof.
  intros net p uuid st. split.
  - apply Propagate_no_db_effect.
  - apply store_after_untouched, Propagate_no_db_effect.
Qed.

(** ** The notification *)

Lemma requests_prologue : forall p uuid tail,
  filter is_request (prologue p uuid ++ tail) = filter is_request tail.
Proof. intros. rewrite filter_app. reflexivity. Qed.

(** With a callback URI that [url.Parse] refuses, a dispatch sends
    nothing at all. *)
Lemma no_request_when_uri_refused :
  List.length (requests (Propagate (net_status 200) propagator_bad_uri "job-a")) = 0%nat
  /\ List.length (requests (Propagate (net_status 200) propagator_bad_uri "job-a")) <> 1%nat
  /\ result (Propagate (net_status 200) propagator_bad_uri "job-a")
     = Some (UrlError "parse" (appsURI propagator_bad_uri)
               "net/url: invalid control character in URL")
  /\ In (Log ErrorLevel
           (ErrorSendingJobStatus (appsURI propagator_bad_uri) "job-a"
              (UrlError "parse" (appsURI propagator_bad_uri)
                 "net/url: invalid control character in URL")))
        (effects (Propagate (net_status 200) propagator_bad_uri "job-a")).
Proof.
  split; [reflexivity|]. split; [vm_compute; discriminate|]. split; [reflexivity|].
  vm_compute. do 3 right. left. reflexivity.
Qed.

(** C4, amended. When the callback URI is accepted by [url.Parse], a
    call of [Propagate] hands exactly one request to the HTTP client: a
    POST to that URI, with header [Content-Type: application/json],
    whose body is the JSON encoding of the job's [JobStatusUpdate]; what
    the client returns for it is what the call goes by.
    For an identifier that is valid UTF-8 this body is the JSON object
    with the single member [uuid] whose value is the identifier, and
    for an identifier of unescaped ASCII bytes it is the text
    [{"uuid":"<external_id>"}].  When the URI is refused, the call does
    no more than log: after the three entries every call begins with it
    writes the error at error level, makes no request, and returns the
    parse error. *)
Theorem Propagate_posts_notification : forall net p uuid,
  match http.url_Parse net (appsURI p) with
  | inl _ =>
      requests (Propagate net p uuid)
      = [HttpDo (notification p uuid) (http.Client_Do net (notification p uuid))]
  | inr e =>
      effects (Propagate net p uuid)
      = prologue p uuid ++ [Log ErrorLevel (ErrorSendingJobStatus (appsURI p) uuid e)]
      /\ requests (Propagate net p uuid) = []
      /\ result (Propagate net p uuid) = Some e
  end
  /\ http.Method (notification p uuid) = http.MethodPost
  /\ http.URL (notification p uuid) = appsURI p
  /\ http.Header_Get (http.Hdr (notification p uuid)) "content-type" = "application/json"
  /\ http.Body (notification p uuid)
     = fst (json.Marshal (reflect_JobStatusUpdate {| UUID := uuid |}))
  /\ (utf8.Valid uuid = true ->
      jsontext.object1 (http.Body (notification p uuid)) = Some ("uuid", uuid))
  /\ (plain uuid = true ->
      http.Body (notification p uuid)
      = ("{" ++ String dquote "uuid" ++ String dquote ":"
         ++ String dquote uuid ++ String dquote "}")%string).
Proof.
  intros net p uuid.
  split; [|repeat split; try reflexivity; [apply object1_payload|apply payload_plain]].
  pose proof (Propagate_cases net p uuid) as Hc.
  destruct (http.url_Parse net (appsURI p)) as [u|e].
  - destruct (http.Client_Do net (notification p uuid)) as [resp|e];
      unfold requests; rewrite Hc; cbn [effects fst];
      rewrite requests_prologue; reflexivity.
  - unfold requests. rewrite Hc. cbn [effects result fst snd].
    rewrite requests_prologue. repeat split; reflexivity.
Qed.

Lemma Propagate_posts_notification_witness :
  utf8.Valid "job-a" = true
  /\ plain "job-a" = true
  /\ requests (Propagate (net_status 200) sample_propagator "job-a")
     = [HttpDo (notification sample_propagator "job-a")
          (inl {| http.Status := "status"; http.StatusCode := 200 |})]
  /\ jsontext.object1 (http.Body (notification sample_propagator "job-a"))
     = Some ("uuid", "job-a")
  /\ http.Body (notification sample_propagator "job-a")
     = ("{" ++ String dquote "uuid" ++ String dquote ":"
        ++ String dquote "job-a" ++ String dquote "}")%string.
Proof.
  split; [reflexivity|]. split; [reflexivity|]. split; [reflexivity|].
  destruct (Propagate_posts_notification (net_status 200) sample_propagator "job-a")
    as (_ & _ & _ & _ & _ & Hobject & Hplain).
  split; [apply Hobject|apply Hplain]; reflexivity.
Defined.

(** The same object, written with white space. *)
Example object1_spaced :
  jsontext.object1
    ("{" ++ String dquote "uuid" ++ String dquote ": "
     ++ String dquote "job-a" ++ String dquote "}")%string
  = Some ("uuid", "job-a").
Proof. reflexivity. Qed.

(** An identifier that is not valid UTF-8 is not what arrives: the
    encoder replaces the offending byte. *)
Example invalid_utf8_is_replaced :
  utf8.Valid id_not_utf8 = false
  /\ jsontext.object1 (payload id_not_utf8) = Some ("uuid", replacement_character)
  /\ replacement_character <> id_not_utf8.
Proof. repeat split. discriminate. Qed.

(** ** The query *)

Lemma scan_rows_rows : forall (l : list string) rest acc,
  scan_rows (map inl l ++ rest) acc = scan_rows rest (acc ++ l).
Proof.
  induction l as [|x l IH]; intros rest acc; cbn.
  - now rewrite app_nil_r.
  - rewrite IH, <- app_assoc. reflexivity.
Qed.

Lemma scan_rows_all : forall (l : list string),
  scan_rows (map inl l) [] = inl l.
Proof.
  intros l. rewrite <- (app_nil_r (map inl l)), scan_rows_rows. reflexivity.
Qed.

(** A nil error means that every row the server selected was read. *)
Lemma Unpropagated_nil_error : forall srv d T ids,
  result (Unpropagated srv d T) = (ids, None) -> ids = sql.select_distinct srv T.
Proof.
  intros srv d T ids. unfold Unpropagated, sql.QueryContext.
  destruct (sql.fault srv) as [|msg|n msg|n msg]; cbn.
  - rewrite scan_rows_all. cbn. congruence.
  - discriminate.
  - rewrite scan_rows_rows. cbn [app].
    destruct (skipn n (sql.select_distinct srv T)) as [|x tl] eqn:Hskip; cbn.
    + intros [= <-]. rewrite <- (firstn_skipn n (sql.select_distinct srv T)) at 2.
      rewrite Hskip, app_nil_r. reflexivity.
    + discriminate.
  - rewrite scan_rows_all. cbn. discriminate.
Qed.

Lemma Unpropagated_no_fault : forall srv d T,
  sql.fault srv = sql.NoFault ->
  Unpropagated srv d T = ([SqlQuery d T; RowsClose], (sql.select_distinct srv T, None)).
Proof.
  intros srv d T Hf. unfold Unpropagated, sql.QueryContext. rewrite Hf. cbn.
  rewrite scan_rows_all. reflexivity.
Qed.

Lemma eligible_spec : forall T r,
  sql.eligible T r = true <-> propagated r = false /\ propagation_attempts r < T.
Proof.
  intros T r. unfold sql.eligible. rewrite andb_true_iff, negb_true_iff, Z.ltb_lt. tauto.
Qed.

Section Select.

Variable srv : sql.Server.
Hypothesis order_is_permutation : forall l, Permutation (sql.row_order srv l) l.

Lemma select_distinct_NoDup : forall T, NoDup (sql.select_distinct srv T).
Proof.
  intros T. unfold sql.select_distinct.
  eapply Permutation_NoDup; [apply Permutation_sym, order_is_permutation|].
  apply NoDup_nodup.
Qed.

Lemma select_distinct_In : forall T id,
  In id (sql.select_distinct srv T)
  <-> exists r, In r (sql.table srv) /\ external_id r = id
                /\ propagated r = false /\ propagation_attempts r < T.
Proof.
  intros T id. unfold sql.select_distinct. split.
  - intros H. apply (Permutation_in _ (order_is_permutation _)) in H.
    apply nodup_In, in_map_iff in H as (r & Hid & Hr).
    apply filter_In in Hr as [Hr He]. apply eligible_spec in He.
    exists r. tauto.
  - intros (r & Hr & Hid & He).
    apply (Permutation_in _ (Permutation_sym (order_is_permutation _))).
    apply nodup_In, in_map_iff. exists r. split; [exact Hid|].
    apply filter_In. split; [exact Hr|]. now apply eligible_spec.
Qed.

End Select.

Lemma rev_is_permutation : forall l : list string, Permutation (rev l) l.
Proof. intros l. apply Permutation_sym, Permutation_rev. Qed.

(** A job with several status records is returned as soon as one of
    them qualifies, whatever the others say: job [a] of the sample table
    has a record with five attempts, and is returned for a ceiling of
    three.  So is a job one of whose records is already propagated. *)
Lemma returned_despite_exhausted_record :
  (In {| external_id := "a"; propagated := false; propagation_attempts := 5 |}
      (sql.table sample_server)
   /\ 3 <= 5
   /\ result (Unpropagated sample_server sample_db 3) = (["a"; "c"], None)
   /\ In "a" (fst (result (Unpropagated sample_server sample_db 3))))
  /\ (let srv := {| sql.table :=
                     [ {| external_id := "b"; propagated := true; propagation_attempts := 0 |};
                       {| external_id := "b"; propagated := false; propagation_attempts := 0 |} ];
                   sql.row_order := fun l => l;
                   sql.fault := sql.NoFault |} in
      result (Unpropagated srv sample_db 3) = (["b"], None))
  /\ ~ (forall srv d T ids r,
          (forall l, Permutation (sql.row_order srv l) l) ->
          result (Unpropagated srv d T) = (ids, None) ->
          In r (sql.table srv) ->
          T <= propagation_attempts r \/ propagated r = true ->
          ~ In (external_id r) ids).
Proof.
  split; [|split].
  - split; [cbn; auto|]. split; [lia|]. split; [reflexivity|]. left. reflexivity.
  - reflexivity.
  - intros H.
    apply (H sample_server sample_db 3 ["a"; "c"]
             {| external_id := "a"; propagated := false; propagation_attempts := 5 |}
             rev_is_permutation eq_refl).
    + cbn. auto.
    + left. cbn. lia.
    + left. reflexivity.
Qed.

(** C3, amended. For every retry ceiling and every table, a query that
    goes through returns, without duplicates, exactly the
    [external_id]s that have a record with [propagated = false] and
    [propagation_attempts] below the ceiling.  An identifier none of
    whose records is such is never returned; in particular, where an
    identifier has a single record, it is not returned when that record
    is propagated or has used up its attempts. *)
Theorem Unpropagated_exact : forall srv d T,
  (forall l, Permutation (sql.row_order srv l) l) ->
  (sql.fault srv = sql.NoFault ->
   exists ids, result (Unpropagated srv d T) = (ids, None))
  /\ forall ids, result (Unpropagated srv d T) = (ids, None) ->
     NoDup ids
     /\ (forall id, In id ids
         <-> exists r, In r (sql.table srv) /\ external_id r = id
                       /\ propagated r = false /\ propagation_attempts r < T)
     /\ (forall id,
           (forall r, In r (sql.table srv) -> external_id r = id ->
                      propagated r = true \/ T <= propagation_attempts r) ->
           ~ In id ids)
     /\ (forall r, In r (sql.table srv) -> In (external_id r) ids ->
           (forall r', In r' (sql.table srv) -> external_id r' = external_id r -> r' = r) ->
           propagated r = false /\ propagation_attempts r < T).
Proof.
  intros srv d T Hperm. split.
  - intros Hf. rewrite (Unpropagated_no_fault _ _ _ Hf). eexists. reflexivity.
  - intros ids Hres. apply Unpropagated_nil_error in Hres. subst ids.
    split; [now apply select_distinct_NoDup|].
    split; [intros id; now apply select_distinct_In|]. split.
    + intros id Hall Hin. apply select_distinct_In in Hin as (r & Hr & Hid & Hp & Ha); auto.
      destruct (Hall r Hr Hid) as [H|H]; [congruence|lia].
    + intros r Hr Hin Hkey.
      apply select_distinct_In in Hin as (r' & Hr' & Hid & Hp & Ha); auto.
      rewrite <- (Hkey r' Hr' Hid). auto.
Qed.

Lemma Unpropagated_exact_witness :
  result (Unpropagated sample_server sample_db 3) = (["a"; "c"], None)
  /\ NoDup ["a"; "c"]
  /\ ~ In "b" ["a"; "c"].
Proof.
  split; [reflexivity|].
  destruct (Unpropagated_exact sample_server sample_db 3 rev_is_permutation) as [_ H].
  destruct (H ["a"; "c"] eq_refl) as (Hnd & _ & Hnever & _).
  split; [exact Hnd|].
  apply Hnever. intros r Hr Hid. cbn in Hr.
  repeat (destruct Hr as [<-|Hr]; [cbn in Hid; try discriminate; auto|]).
  contradiction.
Defined.

(** Every fault surfaces as a non-nil error. *)
Example Unpropagated_broken_iteration :
  result (Unpropagated
            {| sql.table := sql.table sample_server; sql.row_order := fun l => l;
               sql.fault := sql.RowsFault 1 "connection reset" |} sample_db 3)
  = (["c"], Some (SqlError "connection reset")).
Proof. reflexivity. Qed.

(** ** Batching *)

Section Batching.

Variable B : Z.

(** More fuel does not change a result. *)
Lemma batch_loop_fuel_mono : forall fuel fuel' l acc bs,
  (fuel <= fuel')%nat ->
  batch_loop fuel B l acc = Batches bs ->
  batch_loop fuel' B l acc = Batches bs.
Proof.
  induction fuel as [|fuel IH]; intros fuel' l acc bs Hle H; [discriminate|].
  destruct fuel' as [|fuel']; [lia|].
  cbn [batch_loop] in *.
  destruct (B <? Z.of_nat (List.length l)); [|exact H].
  destruct (B <? 0); [discriminate|].
  apply IH; [lia|exact H].
Qed.

(** What the loop returns, when it returns. *)
Lemma batch_loop_sound : forall fuel l acc out,
  batch_loop fuel B l acc = Batches out ->
  exists bs,
    out = acc ++ bs
    /\ List.concat bs = l
    /\ Forall (fun c => Z.of_nat (List.length c) <= B) bs.
Proof.
  induction fuel as [|fuel IH]; intros l acc out H; [discriminate|].
  cbn [batch_loop] in H.
  destruct (B <? Z.of_nat (List.length l)) eqn:Hcmp.
  - destruct (B <? 0) eqn:Hneg; [discriminate|].
    apply Z.ltb_ge in Hneg.
    apply IH in H as (bs & -> & Hcat & Hall).
    exists (firstn (Z.to_nat B) l :: bs). split; [|split].
    + rewrite <- app_assoc. reflexivity.
    + cbn [List.concat]. rewrite Hcat. apply firstn_skipn.
    + constructor; [|exact Hall]. rewrite length_firstn. lia.
  - apply Z.ltb_ge in Hcmp. injection H as <-. exists [l]. split; [reflexivity|]. split.
    + cbn. apply app_nil_r.
    + constructor; [exact Hcmp|constructor].
Qed.

Hypothesis B_positive : 0 < B.

(** With a positive batch size every iteration shortens [unpropped]. *)
Lemma batch_loop_terminates : forall fuel l acc,
  (List.length l < fuel)%nat ->
  exists out, batch_loop fuel B l acc = Batches out.
Proof.
  induction fuel as [|fuel IH]; intros l acc Hlen; [lia|].
  cbn [batch_loop].
  destruct (B <? Z.of_nat (List.length l)) eqn:Hcmp; [|eauto].
  apply Z.ltb_lt in Hcmp.
  replace (B <? 0) with false by (symmetry; apply Z.ltb_ge; lia).
  apply IH. rewrite length_skipn. lia.
Qed.

End Batching.

(** C2. For every sequence of candidates and every positive batch size,
    the batching loop terminates with chunks of at most that size whose
    concatenation, in order, is the input sequence; no run of the loop
    on the same input gives any other result. *)
Theorem Batcher_partitions : forall (unpropped : list string) (B : Z),
  0 < B ->
  exists batches,
    (forall fuel, (List.length unpropped < fuel)%nat ->
                  Batcher fuel B unpropped = Batches batches)
    /\ List.concat batches = unpropped
    /\ Forall (fun chunk => Z.of_nat (List.length chunk) <= B) batches
    /\ (forall fuel batches', Batcher fuel B unpropped = Batches batches' ->
                              batches' = batches).
Proof.
  intros unpropped B HB.
  destruct (batch_loop_terminates B HB (S (List.length unpropped)) unpropped [])
    as (bs & Hrun); [lia|].
  destruct (batch_loop_sound B _ _ _ _ Hrun) as (bs0 & Heq & Hcat & Hall).
  cbn [app] in Heq. subst bs0.
  exists bs. split; [|split; [exact Hcat|split; [exact Hall|]]].
  - intros fuel Hfuel. unfold Batcher.
    apply batch_loop_fuel_mono with (fuel := S (List.length unpropped)); [lia|exact Hrun].
  - intros fuel bs' Hrun'. unfold Batcher in Hrun'.
    pose proof (batch_loop_fuel_mono B _ _ _ _ _ (Nat.le_max_l _ (S (List.length unpropped))) Hrun')
      as H1.
    pose proof (batch_loop_fuel_mono B _ _ _ _ _ (Nat.le_max_r fuel _) Hrun) as H2.
    congruence.
Qed.

Lemma Batcher_partitions_witness :
  0 < 2
  /\ Batcher 6 2 ["a"; "b"; "c"; "d"; "e"] = Batches [["a"; "b"]; ["c"; "d"]; ["e"]]
  /\ exists batches,
       List.concat batches = ["a"; "b"; "c"; "d"; "e"]
       /\ Forall (fun chunk => Z.of_nat (List.length chunk) <= 2) batches.
Proof.
  split; [lia|]. split; [reflexivity|].
  destruct (Batcher_partitions ["a"; "b"; "c"; "d"; "e"] 2) as (bs & _ & Hcat & Hall & _);
    [lia|].
  exists bs. split; assumption.
Defined.

(** An empty candidate list gives one empty batch. *)
Example Batcher_empty : Batcher 1 1000 [] = Batches [[]].
Proof. reflexivity. Qed.

(** Outside the positive batch sizes the loop does not return: with a
    batch size of zero it never ends on a non-empty list, with a
    negative one the first slicing panics. *)
Lemma Batcher_zero_diverges : forall fuel x l acc,
  batch_loop fuel 0 (x :: l) acc = OutOfFuel.
Proof.
  induction fuel as [|fuel IH]; intros x l acc; [reflexivity|].
  cbn [batch_loop]. replace (0 <? Z.of_nat (List.length (x :: l))) with true
    by (symmetry; apply Z.ltb_lt; cbn [List.length]; lia).
  cbn. apply IH.
Qed.

Example Batcher_negative_panics : Batcher 5 (-1) ["a"] = SlicePanic.
Proof. reflexivity. Qed.

(** ** The goroutine of a job *)

Lemma propagator_goroutine_runs : forall net d T uri id,
  propagator_goroutine net d T uri id
  = (SpanStart "propagator goroutine"
       :: effects (Propagate net {| db := d; appsURI := uri |} id)
       ++ match result (Propagate net {| db := d; appsURI := uri |} id) with
          | Some e => [Log ErrorLevel (ErrorValue e)]
          | None => []
          end ++ [SpanEnd],
     Returned).
Proof.
  intros net d T uri id. unfold propagator_goroutine. cbn [NewPropagator].
  destruct (Propagate net {| db := d; appsURI := uri |} id) as [es [e|]];
    cbn; rewrite ?app_nil_r, <- ?app_assoc; reflexivity.
Qed.

Lemma goroutine_never_panics : forall net d T uri id es,
  propagator_goroutine net d T uri id <> (es, Panicked).
Proof. intros. rewrite propagator_goroutine_runs. intros [= _]. Qed.

(** ** Executions of the loop *)

Lemma exec_step : forall cfg s l s', step cfg s l s' -> exec cfg s [l] s'.
Proof. intros. apply (exec_snoc cfg s [] s l s'); [constructor|assumption]. Qed.

Lemma exec_app : forall cfg s1 tr1 s2 tr2 s3,
  exec cfg s1 tr1 s2 -> exec cfg s2 tr2 s3 -> exec cfg s1 (tr1 ++ tr2) s3.
Proof.
  intros cfg s1 tr1 s2 tr2 s3 H1 H2. induction H2.
  - now rewrite app_nil_r.
  - rewrite app_assoc. econstructor; eauto.
Qed.

Lemma step_not_exited : forall cfg s l s',
  step cfg s l s' -> forall code, pc s <> Exited code.
Proof. intros cfg s l s' H code. inversion H; subst; congruence. Qed.

Lemma invariant_initial : forall cfg, invariant cfg initial.
Proof. intros cfg. repeat split. constructor. Qed.

Lemma invariant_step : forall cfg s l s',
  invariant cfg s -> step cfg s l s' -> invariant cfg s'.
Proof.
  intros cfg s l s' [Htag Hpc] Hstep.
  inversion Hstep; subst; unfold invariant, counted, of_current_batch in *;
    cbn [pc wg in_flight cycle batch].
  - (* the query went through *)
    rewrite H in Hpc. destruct Hpc as (Hwg & Hnil & _). rewrite Hnil in *.
    repeat split; auto.
    unfold Batcher in H1. apply batch_loop_sound in H1 as (bs & -> & _ & Hall). exact Hall.
  - split; constructor.
  - split; constructor.
  - (* next batch *)
    rewrite H in Hpc. destruct Hpc as (Hwg & Hnil & Hall). rewrite Hnil in *.
    inversion Hall; subst. repeat split; auto.
  - (* go *)
    rewrite H in Hpc. destruct Hpc as (Hwg & Hlen & Hall). subst t.
    cbn [List.length] in *. repeat split; auto; try lia.
  - (* return *)
    rewrite H0 in Htag, Hpc.
    apply Forall_app in Htag as [Hb Ha]. inversion Ha; subst.
    split; [apply Forall_app; split; assumption|].
    destruct (pc s) eqn:Hp.
    + destruct Hpc as (_ & Hnil & _). destruct before; discriminate.
    + destruct Hpc as (_ & Hnil & _). destruct before; discriminate.
    + destruct Hpc as (Hwg & Hlen & Hall).
      rewrite length_app in *. cbn [List.length] in *. repeat split; auto; lia.
    + destruct before; discriminate.
  - split; constructor.
  - (* barrier *)
    rewrite H in Hpc. destruct Hpc as (Hwg & _ & Hall).
    rewrite H0 in Hwg. destruct (in_flight s); [|cbn in Hwg; lia].
    repeat split; auto.
  - rewrite H in Hpc. destruct Hpc as (Hwg & Hnil & _). rewrite Hnil in *.
    repeat split; auto.
  - split; constructor.
Qed.

Lemma invariant_exec : forall cfg s tr s',
  invariant cfg s -> exec cfg s tr s' -> invariant cfg s'.
Proof.
  intros cfg s tr s' Hinv H. induction H as [|s tr s' l s'' _ IH Hstep]; [assumption|].
  exact (invariant_step cfg s' l s'' (IH Hinv) Hstep).
Qed.

Lemma invariant_holds : forall cfg tr s,
  exec cfg initial tr s -> invariant cfg s.
Proof. intros. eapply invariant_exec; [apply invariant_initial|eassumption]. Qed.

Lemma sample_exec : exec sample_config initial sample_trace sample_state.
Proof.
  unfold sample_trace.
  change [?a; ?b; ?c] with ((([] ++ [a]) ++ [b]) ++ [c]).
  eapply exec_snoc; [eapply exec_snoc; [eapply exec_snoc; [apply exec_nil|]|]|].
  - apply (step_query sample_config initial sample_server
             [SqlQuery sample_db 3; RowsClose] ["a"; "c"] 3%nat [["a"]; ["c"]]);
      reflexivity.
  - apply (step_batch sample_config
             {| pc := AtBatches [["a"]; ["c"]]; wg := 0; in_flight := []; cycle := 0; batch := 0 |}
             ["a"] [["c"]]).
    reflexivity.
  - apply (step_go sample_config
             {| pc := AtJobs ["a"] [["c"]]; wg := 0; in_flight := []; cycle := 0; batch := 1 |}
             "a" [] [["c"]]).
    reflexivity.
Qed.

Lemma fatal_exec : exec sample_config initial [fatal_label] exited_state.
Proof.
  apply exec_step.
  apply (step_query_fatal sample_config initial server_down
           [SqlQuery sample_db 3] [] (SqlError "dial tcp: connection refused"));
    reflexivity.
Qed.

(** ** Starts and returns *)

Lemma starts_app : forall t tr1 tr2,
  starts t (tr1 ++ tr2) = (starts t tr1 + starts t tr2)%nat.
Proof.
  intros t tr1 tr2. induction tr1 as [|l tr1 IH]; [reflexivity|].
  destruct l; cbn [app starts]; rewrite IH; lia.
Qed.

Lemma returns_app : forall t tr1 tr2,
  returns t (tr1 ++ tr2) = (returns t tr1 + returns t tr2)%nat.
Proof.
  intros t tr1 tr2. induction tr1 as [|l tr1 IH]; [reflexivity|].
  destruct l; cbn [app returns]; rewrite IH; lia.
Qed.

Lemma count_occ_same_task : forall t' t l,
  count_occ Task_eq_dec (t' :: l) t = (same_task t' t + count_occ Task_eq_dec l t)%nat.
Proof.
  intros t' t l. cbn [count_occ]. unfold same_task.
  destruct (Task_eq_dec t' t); reflexivity.
Qed.

(** While the process lives, the goroutines in flight are those started
    and not yet returned. *)
Lemma in_flight_balance : forall cfg tr s,
  exec cfg initial tr s ->
  (forall code, pc s <> Exited code) ->
  forall t, starts t tr = (returns t tr + count_occ Task_eq_dec (in_flight s) t)%nat.
Proof.
  intros cfg tr s H. remember initial as s0 eqn:Hs0.
  induction H as [|s tr s' l s'' _ IH Hstep].
  - intros _ t. subst s. reflexivity.
  - intros Halive t. rewrite starts_app, returns_app.
    pose proof (step_not_exited cfg s' l s'' Hstep) as Hprev.
    specialize (IH Hs0 Hprev t).
    inversion Hstep; subst; cbn [pc in_flight starts returns] in *;
      try (exfalso; eapply Halive; reflexivity); try lia.
    + subst t0. rewrite count_occ_same_task. lia.
    + rewrite H0 in IH. rewrite count_occ_app in *.
      rewrite count_occ_same_task in IH. lia.
Qed.

(** ** The barrier *)

(** C8. In every state the program reaches, the goroutines in flight
    all belong to the batch the main goroutine is working on, so there
    are at most batch-size of them; a goroutine is started only for that
    batch; the main goroutine leaves a batch (for the next batch or
    the next cycle) only when nothing is in flight and the counter of
    the WaitGroup is zero; and the batch it takes up next is the first
    of the batches left.  Hence, when a goroutine is started, every
    goroutine started earlier for another batch has returned: the trace
    holds as many returns of it as starts. *)
Theorem batches_never_overlap : forall cfg tr s,
  exec cfg initial tr s ->
  Forall (of_current_batch s) (in_flight s)
  /\ (in_flight s <> [] -> Z.of_nat (List.length (in_flight s)) <= cfg_batchSize cfg)
  /\ (forall t s', step cfg s (LGo t) s' ->
        of_current_batch s t
        /\ Forall (fun t' => t_cycle t' = t_cycle t /\ t_batch t' = t_batch t) (in_flight s))
  /\ (forall l s', step cfg s l s' ->
        cycle s' <> cycle s \/ batch s' <> batch s ->
        in_flight s = [] /\ wg s = 0)
  /\ (forall l s', step cfg s l s' ->
        batch s' <> batch s -> cycle s' = cycle s ->
        exists jobs rest,
          pc s = AtBatches (jobs :: rest) /\ pc s' = AtJobs jobs rest
          /\ batch s' = S (batch s))
  /\ (forall t s', step cfg s (LGo t) s' ->
        forall t', t_cycle t' <> t_cycle t \/ t_batch t' <> t_batch t ->
        returns t' tr = starts t' tr).
Proof.
  intros cfg tr s Hexec.
  pose proof (invariant_holds cfg tr s Hexec) as [Htag Hpc].
  split; [exact Htag|]. split; [|split; [|split; [|split]]].
  - intros Hne. destruct (pc s).
    + destruct Hpc as (_ & Hnil & _). contradiction.
    + destruct Hpc as (_ & Hnil & _). contradiction.
    + destruct Hpc as (_ & Hlen & _). lia.
    + contradiction.
  - intros t s' Hstep. inversion Hstep; subst. subst t0. split; [split; reflexivity|].
    exact Htag.
  - intros l s' Hstep Hmove.
    inversion Hstep; subst; cbn [cycle batch] in Hmove;
      try (destruct Hmove as [Hmove|Hmove]; congruence);
      rewrite H in Hpc; unfold counted in Hpc.
    + destruct Hpc as (Hwg & Hnil & _). rewrite Hnil in Hwg. auto.
    + destruct Hpc as (Hwg & Hnil & _). rewrite Hnil in Hwg. auto.
    + destruct Hpc as (Hwg & Hnil & _). rewrite Hnil in Hwg. auto.
  - intros l s' Hstep Hbatch Hcycle.
    inversion Hstep; subst; cbn [cycle batch pc] in *; try congruence.
    + rewrite H in Hpc. destruct Hpc as (_ & _ & Hzero). congruence.
    + eauto.
    + lia.
  - intros t s' Hstep t' Hother.
    pose proof (in_flight_balance cfg tr s Hexec (step_not_exited cfg s _ s' Hstep) t') as Hbal.
    rewrite (proj1 (count_occ_not_In Task_eq_dec (in_flight s) t')) in Hbal; [lia|].
    intros Hin. rewrite Forall_forall in Htag. destruct (Htag t' Hin) as [Hc Hb].
    inversion Hstep; subst. subst t0. cbn [t_cycle t_batch] in Hother. lia.
Qed.

Lemma batches_never_overlap_witness :
  exec sample_config initial sample_trace sample_state
  /\ in_flight sample_state <> []
  /\ Forall (of_current_batch sample_state) (in_flight sample_state)
  /\ Z.of_nat (List.length (in_flight sample_state)) <= cfg_batchSize sample_config.
Proof.
  split; [exact sample_exec|]. split; [discriminate|].
  destruct (batches_never_overlap sample_config sample_trace sample_state sample_exec)
    as (Htag & Hbound & _).
  split; [exact Htag|]. apply Hbound. discriminate.
Defined.

(** ** A failing query *)

(** Work recorded in an execution belongs to a cycle already begun, and
    to an earlier one when the main goroutine is at the top of the loop. *)
Lemma work_bounded : forall cfg tr s,
  exec cfg initial tr s ->
  forall l c, In l tr -> work_of_cycle l = Some c ->
    (c <= cycle s)%nat /\ (pc s = AtCycleStart -> (c < cycle s)%nat).
Proof.
  intros cfg tr s H. induction H as [|s tr s' l0 s'' _ IH Hstep].
  - intros l c [].
  - intros l c Hin Hwork. apply in_app_or in Hin as [Hin|[<-|[]]].
    + specialize (IH l c Hin Hwork) as [Hle Hlt].
      inversion Hstep; subst; cbn [pc cycle]; split; try discriminate; try lia; auto.
    + inversion Hstep; subst; cbn [pc cycle work_of_cycle] in *; try discriminate;
        injection Hwork as <-; (split; [lia|discriminate]).
Qed.

Lemma fatal_is_last : forall cfg tr s,
  exec cfg initial tr s ->
  forall c srv err es, In (LFatal c srv err es) tr ->
    exists tr0 s0,
      tr = tr0 ++ [LFatal c srv err es]
      /\ exec cfg initial tr0 s0
      /\ step cfg s0 (LFatal c srv err es) s.
Proof.
  intros cfg tr s H. induction H as [|s tr s' l0 s'' Hexec IH Hstep].
  - intros c srv err es [].
  - intros c srv err es Hin. apply in_app_or in Hin as [Hin|[<-|[]]].
    + destruct (IH c srv err es Hin) as (tr0 & s0 & _ & _ & Hfatal).
      exfalso. inversion Hfatal; subst.
      eapply step_not_exited; [exact Hstep|reflexivity].
    + eauto.
Qed.

(** C6. A query error is fatal.  When the query of a cycle fails, the
    one step the main goroutine can take on that answer is the exit of
    the process, with span end and fatal log entry and nothing left in
    flight.  In an execution in which this has happened it is the last
    step: the process is gone and takes no further step, and no query
    went through, no batch was taken up and no goroutine was started in
    that cycle or in any later one. *)
Theorem query_error_is_fatal : forall cfg tr s,
  exec cfg initial tr s ->
  (forall srv es unpropped err,
     pc s = AtCycleStart ->
     Unpropagated srv (cfg_db cfg) (cfg_maxRetries cfg) = (es, (unpropped, Some err)) ->
     (exists s',
        step cfg s (LFatal (cycle s) srv err (SpanStart "propagation loop" :: es ++ fatal err)) s')
     /\ (forall l s', step cfg s l s' -> answered_by l = Some srv ->
           l = LFatal (cycle s) srv err (SpanStart "propagation loop" :: es ++ fatal err)
           /\ pc s' = Exited 1 /\ in_flight s' = []))
  /\ forall c srv err es, In (LFatal c srv err es) tr ->
       (exists es0 unpropped,
          Unpropagated srv (cfg_db cfg) (cfg_maxRetries cfg) = (es0, (unpropped, Some err)))
       /\ pc s = Exited 1
       /\ in_flight s = []
       /\ (forall l s', ~ step cfg s l s')
       /\ (exists tr0, tr = tr0 ++ [LFatal c srv err es])
       /\ (forall l c', In l tr -> work_of_cycle l = Some c' -> (c' < c)%nat).
Proof.
  intros cfg tr s Hexec. split.
  - intros srv es unpropped err Hpc Hq. split.
    + eexists. eapply step_query_fatal; eassumption.
    + intros l s' Hstep Hsrv.
      inversion Hstep; subst; cbn [answered_by] in Hsrv; try discriminate;
        injection Hsrv as ->; rewrite Hq in *.
      * discriminate.
      * match goal with H : (_, (_, Some _)) = _ |- _ => injection H as <- <- <- end.
        repeat split.
      * discriminate.
  - intros c srv err es Hin.
    destruct (fatal_is_last cfg tr s Hexec c srv err es Hin)
      as (tr0 & s0 & -> & Hexec0 & Hfatal).
    inversion Hfatal; subst. cbn [pc in_flight].
    split; [eauto|]. split; [reflexivity|]. split; [reflexivity|]. split; [|split].
    + intros l s' Hstep. eapply step_not_exited; [exact Hstep|reflexivity].
    + eauto.
    + intros l c' Hl Hwork. apply in_app_or in Hl as [Hl|[<-|[]]]; [|discriminate].
      apply (work_bounded cfg tr0 s0 Hexec0 l c' Hl Hwork). assumption.
Qed.

Lemma query_error_is_fatal_witness :
  exec sample_config initial [fatal_label] exited_state
  /\ In fatal_label [fatal_label]
  /\ pc exited_state = Exited 1
  /\ (forall l s', ~ step sample_config exited_state l s').
Proof.
  split; [exact fatal_exec|]. split; [left; reflexivity|].
  destruct (query_error_is_fatal sample_config [fatal_label] exited_state fatal_exec)
    as [_ H].
  destruct (H 0%nat server_down (SqlError "dial tcp: connection refused") _ (or_introl eq_refl))
    as (_ & Hpc & _ & Hstuck & _).
  split; [exact Hpc|exact Hstuck].
Defined.

(** ** Failures of a dispatch *)

Lemma goroutine_of_runs : forall cfg net t,
  goroutine_of cfg net t = (effects (goroutine_of cfg net t), Returned).
Proof.
  intros cfg net t. unfold goroutine_of. rewrite propagator_goroutine_runs. reflexivity.
Qed.

Lemma goroutine_logs_failure : forall cfg net t err,
  result (Propagate net (propagator_of cfg) (t_jobExtID t)) = Some err ->
  In (Log ErrorLevel (ErrorValue err)) (effects (goroutine_of cfg net t)).
Proof.
  intros cfg net t err H. unfold goroutine_of. rewrite propagator_goroutine_runs.
  unfold propagator_of in H. rewrite H. cbn [effects fst].
  right. apply in_or_app. right. left. reflexivity.
Qed.

Section Runs.

Variable cfg : Config.
Variable nets : Task -> http.Net.

Lemma returns_by_app : forall tr1 tr2,
  returns_by cfg nets tr1 -> returns_by cfg nets tr2 -> returns_by cfg nets (tr1 ++ tr2).
Proof.
  intros tr1 tr2 H1 H2 t es Hin. apply in_app_or in Hin as [Hin|Hin]; auto.
Qed.

Lemma started_app_l : forall c tr1 tr2 job, started c tr1 job -> started c (tr1 ++ tr2) job.
Proof. intros c tr1 tr2 job (t & Hin & H). exists t. split; [apply in_or_app; auto|exact H]. Qed.

Lemma started_app_r : forall c tr1 tr2 job, started c tr2 job -> started c (tr1 ++ tr2) job.
Proof. intros c tr1 tr2 job (t & Hin & H). exists t. split; [apply in_or_app; auto|exact H]. Qed.

(** The main goroutine starts every job left in the batch. *)
Lemma run_go : forall jobs s batches,
  pc s = AtJobs jobs batches -> counted s ->
  exists tr s',
    exec cfg s tr s'
    /\ pc s' = AtJobs [] batches /\ counted s'
    /\ cycle s' = cycle s /\ batch s' = batch s
    /\ (forall t, In t (in_flight s) -> In t (in_flight s'))
    /\ (forall job, In job jobs -> started (cycle s) tr job)
    /\ returns_by cfg nets tr.
Proof.
  induction jobs as [|job jobs IH]; intros s batches Hpc Hwg.
  - exists [], s. repeat split; auto; try constructor.
    + intros job [].
    + intros t es [].
  - pose proof (step_go cfg s job jobs batches Hpc) as Hstep. cbv zeta in Hstep.
    match type of Hstep with step _ _ _ ?st => set (s1 := st) in * end.
    destruct (IH s1 batches eq_refl) as (tr & s' & Hexec & Hpc' & Hwg' & Hc & Hb & Hkeep & Hgo & Hret).
    { unfold counted, s1 in *. cbn [wg in_flight List.length]. lia. }
    exists ([LGo {| t_cycle := cycle s; t_batch := batch s; t_jobExtID := job |}] ++ tr), s'.
    split; [eapply exec_app; [apply exec_step; exact Hstep|exact Hexec]|].
    repeat split; auto.
    + intros t Hin. apply Hkeep. right. exact Hin.
    + intros j [<-|Hj].
      * apply started_app_l. eexists. split; [left; reflexivity|split; reflexivity].
      * apply started_app_r. apply Hgo. exact Hj.
    + apply returns_by_app; [|exact Hret]. intros t es [H|[]]. discriminate.
Qed.

(** Every goroutine in flight returns. *)
Lemma run_returns : forall n s,
  List.length (in_flight s) = n -> (forall code, pc s <> Exited code) -> counted s ->
  exists tr s',
    exec cfg s tr s'
    /\ pc s' = pc s /\ in_flight s' = [] /\ wg s' = 0
    /\ cycle s' = cycle s /\ batch s' = batch s
    /\ (forall t, In t (in_flight s) -> exists es, In (LReturn t es) tr)
    /\ (forall c job, ~ started c tr job)
    /\ returns_by cfg nets tr.
Proof.
  induction n as [|n IH]; intros s Hlen Halive Hwg.
  - destruct (in_flight s) eqn:Hfl; [|discriminate].
    exists [], s. unfold counted in Hwg. rewrite Hfl in Hwg.
    repeat split; auto; try constructor.
    + intros t [].
    + intros c job (t & [] & _).
    + intros t es [].
  - destruct (in_flight s) as [|t rest] eqn:Hfl; [discriminate|].
    pose proof (step_return cfg s (nets t) t [] rest _ Halive Hfl (goroutine_of_runs cfg (nets t) t))
      as Hstep.
    match type of Hstep with step _ _ _ ?st => set (s1 := st) in * end.
    destruct (IH s1) as (tr & s' & Hexec & Hpc' & Hnil & Hzero & Hc & Hb & Hall & Hno & Hret).
    { cbn in *. lia. }
    { exact Halive. }
    { unfold counted, s1 in *. rewrite Hfl in Hwg. cbn [wg in_flight List.length app] in *. lia. }
    exists ([LReturn t (effects (goroutine_of cfg (nets t) t))] ++ tr), s'.
    split; [eapply exec_app; [apply exec_step; exact Hstep|exact Hexec]|].
    repeat split; auto.
    + intros t' [<-|Hin].
      * eexists. left. reflexivity.
      * destruct (Hall t' Hin) as [es Hes]. exists es. right. exact Hes.
    + intros c job (t' & [H|Hin] & Hrest); [discriminate|].
      apply (Hno c job). exists t'. auto.
    + apply returns_by_app; [|exact Hret]. intros t' es [H|[]]. now injection H as <- <-.
Qed.

End Runs.

Section Cycle.

Variable cfg : Config.
Variable nets : Task -> http.Net.

(** Starting the jobs left, waiting for everything in flight, and
    passing the barrier. *)
Lemma run_batch : forall jobs s batches,
  pc s = AtJobs jobs batches -> counted s ->
  exists tr s',
    exec cfg s tr s'
    /\ pc s' = AtBatches batches /\ counted s' /\ cycle s' = cycle s
    /\ (forall t, In t (in_flight s) -> exists es, In (LReturn t es) tr)
    /\ (forall job, In job jobs -> started (cycle s) tr job)
    /\ returns_by cfg nets tr.
Proof.
  intros jobs s batches Hpc Hwg.
  destruct (run_go cfg nets jobs s batches Hpc Hwg)
    as (tr1 & s1 & Hexec1 & Hpc1 & Hwg1 & Hc1 & Hb1 & Hkeep & Hgo & Hret1).
  destruct (run_returns cfg nets (List.length (in_flight s1)) s1 eq_refl)
    as (tr2 & s2 & Hexec2 & Hpc2 & Hnil2 & Hzero2 & Hc2 & Hb2 & Hall & _ & Hret2);
    [rewrite Hpc1; discriminate|exact Hwg1|].
  rewrite Hpc1 in Hpc2.
  pose proof (step_barrier cfg s2 batches Hpc2 Hzero2) as Hstep.
  match type of Hstep with step _ _ _ ?st => set (s3 := st) in * end.
  exists ((tr1 ++ tr2) ++ [LBarrier (cycle s2) (batch s2)]), s3.
  split; [eapply exec_snoc; [eapply exec_app; eassumption|exact Hstep]|].
  split; [reflexivity|]. split; [|split; [|split; [|split]]].
  - unfold counted, s3. cbn [wg in_flight]. rewrite Hnil2, Hzero2. reflexivity.
  - cbn [s3 cycle]. congruence.
  - intros t Hin. destruct (Hall t (Hkeep t Hin)) as [es Hes]. exists es.
    apply in_or_app. left. apply in_or_app. right. exact Hes.
  - intros job Hjob. apply started_app_l, started_app_l. apply Hgo. exact Hjob.
  - apply returns_by_app; [apply returns_by_app; assumption|].
    intros t es [H|[]]. discriminate.
Qed.

(** Batch after batch to the end of the cycle. *)
Lemma run_batches : forall batches s,
  pc s = AtBatches batches -> counted s ->
  exists tr s',
    exec cfg s tr s'
    /\ pc s' = AtCycleStart /\ cycle s' = S (cycle s)
    /\ (forall job, In job (List.concat batches) -> started (cycle s) tr job)
    /\ returns_by cfg nets tr.
Proof.
  induction batches as [|jobs batches IH]; intros s Hpc Hwg.
  - pose proof (step_cycle_end cfg s Hpc) as Hstep.
    eexists [LCycleEnd (cycle s)], _. split; [apply exec_step; exact Hstep|].
    repeat split.
    + intros job [].
    + intros t es [H|[]]. discriminate.
  - pose proof (step_batch cfg s jobs batches Hpc) as Hstep.
    match type of Hstep with step _ _ _ ?st => set (s1 := st) in * end.
    destruct (run_batch jobs s1 batches eq_refl Hwg)
      as (tr2 & s2 & Hexec2 & Hpc2 & Hwg2 & Hc2 & _ & Hgo2 & Hret2).
    destruct (IH s2 Hpc2 Hwg2) as (tr3 & s3 & Hexec3 & Hpc3 & Hc3 & Hgo3 & Hret3).
    exists (([LBatch (cycle s) (S (batch s)) jobs] ++ tr2) ++ tr3), s3.
    split; [eapply exec_app; [eapply exec_app; [apply exec_step; exact Hstep|exact Hexec2]|exact Hexec3]|].
    split; [exact Hpc3|]. split; [rewrite Hc3, Hc2; reflexivity|]. split.
    + intros job Hjob. cbn [List.concat] in Hjob. apply in_app_or in Hjob as [Hjob|Hjob].
      * apply started_app_l, started_app_r. apply (Hgo2 job Hjob).
      * apply started_app_r. rewrite Hc2 in Hgo3. apply (Hgo3 job Hjob).
    + apply returns_by_app; [apply returns_by_app|]; try assumption.
      intros t es [H|[]]. discriminate.
Qed.

(** From inside a batch to the top of the next cycle. *)
Lemma finish_cycle : forall jobs s batches,
  pc s = AtJobs jobs batches -> counted s ->
  exists tr s',
    exec cfg s tr s'
    /\ pc s' = AtCycleStart /\ cycle s' = S (cycle s)
    /\ (forall t, In t (in_flight s) -> exists es, In (LReturn t es) tr)
    /\ (forall job, In job (jobs_left (pc s)) -> started (cycle s) tr job)
    /\ returns_by cfg nets tr.
Proof.
  intros jobs s batches Hpc Hwg.
  destruct (run_batch jobs s batches Hpc Hwg)
    as (tr1 & s1 & Hexec1 & Hpc1 & Hwg1 & Hc1 & Hall & Hgo1 & Hret1).
  destruct (run_batches batches s1 Hpc1 Hwg1) as (tr2 & s2 & Hexec2 & Hpc2 & Hc2 & Hgo2 & Hret2).
  exists (tr1 ++ tr2), s2.
  split; [eapply exec_app; eassumption|].
  split; [exact Hpc2|]. split; [rewrite Hc2, Hc1; reflexivity|]. split; [|split].
  - intros t Hin. destruct (Hall t Hin) as [es Hes]. exists es. apply in_or_app. auto.
  - rewrite Hpc. cbn [jobs_left]. intros job Hjob. apply in_app_or in Hjob as [Hjob|Hjob].
    + apply started_app_l. apply (Hgo1 job Hjob).
    + apply started_app_r. rewrite Hc1 in Hgo2. apply (Hgo2 job Hjob).
  - apply returns_by_app; assumption.
Qed.

End Cycle.

(** Inside a cycle the process does not exit, unless the diagnostics
    listener fails: neither the main goroutine nor a returning
    goroutine ends it. *)
Lemma stays_in_cycle : forall cfg s tr s',
  exec cfg s tr s' -> in_cycle (pc s) ->
  (cycle s <= cycle s')%nat
  /\ (cycle s' = cycle s -> in_cycle (pc s') \/ exists msg, In (LListenerFatal msg) tr).
Proof.
  intros cfg s tr s' H Hin. induction H as [|s tr s' l s'' _ IH Hstep].
  - split; [lia|auto].
  - destruct (IH Hin) as [Hle Hsame].
    assert (Hold : (exists msg, In (LListenerFatal msg) tr) ->
                   exists msg, In (LListenerFatal msg) (tr ++ [l])).
    { intros [msg Hmsg]. exists msg. apply in_or_app. auto. }
    inversion Hstep; subst; cbn [pc cycle]; (split; [lia|]); intros Heq;
      try (left; exact I); try lia;
      try (destruct (Hsame Heq) as [Hc|Hc]; [|right; exact (Hold Hc)];
           first [rewrite H in Hc; contradiction | left; exact Hc]).
    + exfalso. eapply goroutine_never_panics. eassumption.
    + right. exists msg. apply in_or_app. right. left. reflexivity.
Qed.

(** C5. A failed dispatch stays with its job.  When the goroutine of a
    job in flight has its [Propagate] fail, with whatever error, the
    goroutine logs the error and returns; its return leaves the main
    goroutine and the other goroutines in flight where they were; no
    execution from there exits the process within the cycle (short of a
    failure of the diagnostics listener); and,
    however the remaining dispatches turn out, the cycle can run to its
    end: every other goroutine in flight returns, every job not yet
    started is started, and the next cycle begins. *)
Theorem dispatch_failure_is_contained : forall cfg tr s,
  exec cfg initial tr s ->
  forall t net err,
    In t (in_flight s) ->
    result (Propagate net (propagator_of cfg) (t_jobExtID t)) = Some err ->
    exists es s',
      goroutine_of cfg net t = (es, Returned)
      /\ In (Log ErrorLevel (ErrorValue err)) es
      /\ step cfg s (LReturn t es) s'
      /\ pc s' = pc s /\ cycle s' = cycle s /\ batch s' = batch s
      /\ (exists before after,
            in_flight s = before ++ t :: after /\ in_flight s' = before ++ after)
      /\ (forall tr2 s2, exec cfg s' tr2 s2 -> cycle s2 = cycle s ->
            in_cycle (pc s2) \/ exists msg, In (LListenerFatal msg) tr2)
      /\ (forall nets : Task -> http.Net,
          exists tr' s'',
            exec cfg s' tr' s''
            /\ pc s'' = AtCycleStart /\ cycle s'' = S (cycle s)
            /\ (forall t', In t' (in_flight s') -> exists es', In (LReturn t' es') tr')
            /\ (forall job, In job (jobs_left (pc s)) -> started (cycle s) tr' job)
            /\ returns_by cfg nets tr').
Proof.
  intros cfg tr s Hexec t net err Hin Hfail.
  pose proof (invariant_holds cfg tr s Hexec) as [_ Hinv].
  assert (Hjobs : exists jobs batches, pc s = AtJobs jobs batches /\ counted s).
  { destruct (pc s) as [|batches|jobs batches|code].
    - destruct Hinv as (_ & Hnil & _). rewrite Hnil in Hin. contradiction.
    - destruct Hinv as (_ & Hnil & _). rewrite Hnil in Hin. contradiction.
    - destruct Hinv as (Hwg & _). eauto.
    - rewrite Hinv in Hin. contradiction. }
  destruct Hjobs as (jobs & batches & Hpc & Hwg).
  apply in_split in Hin as (before & after & Hfl).
  assert (Halive : forall code, pc s <> Exited code) by (rewrite Hpc; discriminate).
  pose proof (step_return cfg s net t before after _ Halive Hfl (goroutine_of_runs cfg net t))
    as Hstep.
  match type of Hstep with step _ _ _ ?st => set (s1 := st) in * end.
  assert (Hwg1 : counted s1).
  { unfold counted, s1 in *. cbn [wg in_flight]. rewrite Hfl in Hwg.
    rewrite length_app in *. cbn [List.length] in Hwg. lia. }
  exists (effects (goroutine_of cfg net t)), s1.
  split; [apply goroutine_of_runs|]. split; [now apply goroutine_logs_failure|].
  split; [exact Hstep|]. split; [reflexivity|]. split; [reflexivity|]. split; [reflexivity|].
  split; [exists before, after; split; [exact Hfl|reflexivity]|]. split.
  - intros tr2 s2 Hexec2 Hsame.
    apply (stays_in_cycle cfg s1 tr2 s2 Hexec2); [|exact Hsame].
    cbn [s1 pc]. rewrite Hpc. exact I.
  - intros nets.
    destruct (finish_cycle cfg nets jobs s1 batches Hpc Hwg1)
      as (tr' & s'' & Hexec' & Hpc' & Hc' & Hall & Hgo & Hret).
    exists tr', s''. repeat split; auto.
Qed.

Lemma dispatch_failure_is_contained_witness :
  exec sample_config initial sample_trace sample_state
  /\ In task_a (in_flight sample_state)
  /\ result (Propagate net_refused (propagator_of sample_config) (t_jobExtID task_a))
     = Some (UrlError "Post" "http://apps/callbacks" "dial tcp: connection refused")
  /\ exists es s',
       In (Log ErrorLevel
             (ErrorValue (UrlError "Post" "http://apps/callbacks" "dial tcp: connection refused")))
          es
       /\ step sample_config sample_state (LReturn task_a es) s'
       /\ pc s' = pc sample_state
       /\ exists tr' s'',
            exec sample_config s' tr' s''
            /\ pc s'' = AtCycleStart
            /\ started 0 tr' "c".
Proof.
  split; [exact sample_exec|]. split; [left; reflexivity|]. split; [reflexivity|].
  destruct (dispatch_failure_is_contained sample_config sample_trace sample_state sample_exec
              task_a net_refused
              (UrlError "Post" "http://apps/callbacks" "dial tcp: connection refused")
              (or_introl eq_refl) eq_refl)
    as (es & s' & _ & Hlog & Hstep & Hpc & _ & _ & _ & _ & Hrun).
  exists es, s'. split; [exact Hlog|]. split; [exact Hstep|]. split; [exact Hpc|].
  destruct (Hrun (fun _ => net_status 200)) as (tr' & s'' & Hexec & Hend & _ & _ & Hgo & _).
  exists tr', s''. split; [exact Hexec|]. split; [exact Hend|].
  apply Hgo. left. reflexivity.
Defined.

(** * Further properties *)

(** ** Errors of the query *)

Lemma scan_rows_stops : forall (l : list string) err rest acc,
  scan_rows (map inl l ++ inr err :: rest) acc = inr err.
Proof. intros l err rest acc. rewrite scan_rows_rows. reflexivity. Qed.

(** X1. What [Unpropagated] returns when the exchange with the server
    goes wrong.  A failing [QueryContext] and a failing [Scan] give a
    nil slice and the error: the rows read before a bad row are dropped.
    An iteration that breaks off gives the rows read so far together
    with the error of [rows.Err].  A bad row beyond the last row does
    no harm. *)
Theorem Unpropagated_on_fault : forall srv d T,
  let ids := sql.select_distinct srv T in
  match sql.fault srv with
  | sql.NoFault => result (Unpropagated srv d T) = (ids, None)
  | sql.QueryFault msg => result (Unpropagated srv d T) = ([], Some (SqlError msg))
  | sql.ScanFault n msg =>
    result (Unpropagated srv d T)
    = if (n <? List.length ids)%nat then ([], Some (SqlError msg)) else (ids, None)
  | sql.RowsFault n msg =>
    result (Unpropagated srv d T) = (firstn n ids, Some (SqlError msg))
  end.
Proof.
  intros srv d T ids. unfold Unpropagated, sql.QueryContext. fold ids.
  destruct (sql.fault srv) as [|msg|n msg|n msg].
  - cbn. rewrite scan_rows_all. reflexivity.
  - reflexivity.
  - destruct (n <? List.length ids)%nat eqn:Hn; cbn.
    + apply Nat.ltb_lt in Hn.
      destruct (skipn n ids) as [|x tl] eqn:Hskip.
      * apply (f_equal (@List.length string)) in Hskip.
        rewrite length_skipn in Hskip. cbn in Hskip. lia.
      * rewrite scan_rows_stops. reflexivity.
    + apply Nat.ltb_ge in Hn. rewrite skipn_all2 by exact Hn.
      rewrite firstn_all2 by exact Hn. rewrite app_nil_r, scan_rows_all. reflexivity.
  - cbn. rewrite scan_rows_all. reflexivity.
Qed.

(** X2. Each call sends the query once, and the rows are closed exactly
    when they were opened: once, as the last thing the function does,
    whether the loop over the rows ended well, at a bad row or with a
    broken iteration; never when [QueryContext] itself failed. *)
Theorem Unpropagated_closes_rows : forall srv d T,
  effects (Unpropagated srv d T)
  = match sql.QueryContext srv d T with
    | inl _ => [SqlQuery d T; RowsClose]
    | inr _ => [SqlQuery d T]
    end.
Proof.
  intros srv d T. unfold Unpropagated.
  destruct (sql.QueryContext srv d T) as [rows|err]; [|reflexivity].
  destruct (scan_rows (sql.fetched rows) []); reflexivity.
Qed.

Section Ceiling.

Variable srv : sql.Server.
Hypothesis order_is_permutation : forall l, Permutation (sql.row_order srv l) l.
Hypothesis no_fault : sql.fault srv = sql.NoFault.

Lemma Unpropagated_ids : forall d T,
  fst (result (Unpropagated srv d T)) = sql.select_distinct srv T.
Proof. intros d T. rewrite (Unpropagated_no_fault srv d T no_fault). reflexivity. Qed.

End Ceiling.

(** X3. Raising the retry ceiling never loses a job: every identifier
    returned for a ceiling is returned for any higher ceiling. *)
Theorem Unpropagated_monotone : forall srv d T T',
  (forall l, Permutation (sql.row_order srv l) l) ->
  sql.fault srv = sql.NoFault ->
  T <= T' ->
  forall id, In id (fst (result (Unpropagated srv d T))) ->
             In id (fst (result (Unpropagated srv d T'))).
Proof.
  intros srv d T T' Hperm Hf Hle id.
  rewrite !(Unpropagated_ids srv Hf).
  rewrite !(select_distinct_In srv Hperm).
  intros (r & Hr & Hid & Hp & Ha). exists r. repeat split; auto. lia.
Qed.

Lemma Unpropagated_monotone_witness :
  3 <= 6
  /\ In "a" (fst (result (Unpropagated sample_server sample_db 3)))
  /\ In "a" (fst (result (Unpropagated sample_server sample_db 6))).
Proof.
  split; [lia|].
  assert (H : In "a" (fst (result (Unpropagated sample_server sample_db 3))))
    by (left; reflexivity).
  split; [exact H|].
  apply (Unpropagated_monotone sample_server sample_db 3 6 rev_is_permutation eq_refl);
    [lia|exact H].
Defined.

(** X4. With a retry ceiling of zero or less nothing is ever selected,
    attempts being counted from zero: the service then polls without
    dispatching anything. *)
Theorem Unpropagated_ceiling_zero : forall srv d T,
  (forall l, Permutation (sql.row_order srv l) l) ->
  sql.fault srv = sql.NoFault ->
  (forall r, In r (sql.table srv) -> 0 <= propagation_attempts r) ->
  T <= 0 ->
  result (Unpropagated srv d T) = ([], None).
Proof.
  intros srv d T Hperm Hf Hnonneg HT.
  rewrite (Unpropagated_no_fault srv d T Hf). cbn [result snd].
  destruct (sql.select_distinct srv T) as [|id ids] eqn:Hsel; [reflexivity|].
  assert (Hin : In id (sql.select_distinct srv T)) by (rewrite Hsel; left; reflexivity).
  apply (select_distinct_In srv Hperm) in Hin as (r & Hr & _ & _ & Ha).
  specialize (Hnonneg r Hr). lia.
Qed.

Lemma Unpropagated_ceiling_zero_witness :
  result (Unpropagated sample_server sample_db 0) = ([], None).
Proof.
  apply (Unpropagated_ceiling_zero sample_server sample_db 0 rev_is_permutation eq_refl);
    [|lia].
  intros r Hr. cbn in Hr.
  repeat (destruct Hr as [<-|Hr]; [cbn; lia|]). contradiction.
Defined.

(** ** The response body and the log *)

(** X5. The response body is closed exactly when a response was
    received: once, as the last thing [Propagate] does, for a good
    status and for a bad one; and never when the request could not be
    built or sent. *)
Theorem Propagate_closes_body : forall net p uuid,
  match http.NewRequestWithContext net http.MethodPost (appsURI p) (payload uuid) with
  | inr _ => ~ In BodyClose (effects (Propagate net p uuid))
  | inl _ =>
    match http.Client_Do net (notification p uuid) with
    | inr _ => ~ In BodyClose (effects (Propagate net p uuid))
    | inl resp =>
      exists es, effects (Propagate net p uuid) = es ++ [BodyClose]
                 /\ ~ In BodyClose es
                 /\ In (HttpDo (notification p uuid) (inl resp)) es
    end
  end.
Proof.
  intros net p uuid. rewrite NewRequest_post.
  pose proof (Propagate_cases net p uuid) as Hc.
  destruct (http.url_Parse net (appsURI p)) as [u|e].
  - destruct (http.Client_Do net (notification p uuid)) as [resp|e]; rewrite Hc;
      cbn [effects fst].
    + exists (prologue p uuid
                ++ [HttpDo (notification p uuid) (inl resp);
                    Log InfoLevel (ResponseFrom (appsURI p) uuid (http.Status resp))]).
      split; [rewrite <- app_assoc; reflexivity|]. split.
      * intros H. apply in_app_or in H as [H|H]; cbn in H;
          repeat (destruct H as [H|H]; [discriminate|]); contradiction.
      * apply in_or_app. right. left. reflexivity.
    + intros H. apply in_app_or in H as [H|H]; cbn in H;
        repeat (destruct H as [H|H]; [discriminate|]); contradiction.
  - rewrite Hc. cbn [effects fst].
    intros H. apply in_app_or in H as [H|H]; cbn in H;
      repeat (destruct H as [H|H]; [discriminate|]); contradiction.
Qed.

Lemma error_entries_prologue : forall p uuid tail,
  error_entries (prologue p uuid ++ tail) = error_entries tail.
Proof. intros. unfold error_entries. rewrite filter_app. reflexivity. Qed.


(** ** The payload, byte by byte *)

(** X7. Two jobs whose identifiers are valid UTF-8 never share a
    payload: the body of the notification determines the job. *)
Theorem payload_injective : forall uuid1 uuid2,
  utf8.Valid uuid1 = true -> utf8.Valid uuid2 = true ->
  payload uuid1 = payload uuid2 -> uuid1 = uuid2.
Proof.
  intros uuid1 uuid2 H1 H2 Heq.
  pose proof (object1_payload uuid1 H1) as R1.
  pose proof (object1_payload uuid2 H2) as R2.
  rewrite Heq in R1. congruence.
Qed.

Lemma payload_injective_witness :
  utf8.Valid "job-a" = true /\ utf8.Valid "job-a" = true
  /\ payload "job-a" = payload "job-a" /\ "job-a" = "job-a".
Proof.
  split; [reflexivity|]. split; [reflexivity|]. split; [reflexivity|].
  apply payload_injective; reflexivity.
Defined.

(** Identifiers that are not valid UTF-8 can share one. *)
Example payload_collision :
  payload (String (byte_of 0xFF) EmptyString) = payload (String (byte_of 0xFE) EmptyString).
Proof. reflexivity. Qed.

Lemma inert_byteb_spec : forall c, inert_byteb c = true -> inert_byte c.
Proof.
  intros c H. unfold inert_byteb in H. apply andb_prop in H as [Hlo Hn].
  apply negb_true_iff in Hn. repeat apply orb_false_elim in Hn as [Hn ?].
  apply Z.leb_le in Hlo. unfold inert_byte.
  repeat split; try lia; now apply Z.eqb_neq.
Qed.

Lemma inert_bytes : forall l, forallb inert_byteb l = true -> Forall inert_byte l.
Proof.
  intros l H. apply Forall_forall. intros c Hc.
  apply inert_byteb_spec. rewrite forallb_forall in H. auto.
Qed.

Lemma inert_high : forall c, 0x80 <= byte_val c -> inert_byte c.
Proof. intros c H. unfold inert_byte. lia. Qed.

Lemma inert_safe : forall c, json.htmlSafeSet (byte_val c) = true -> inert_byte c.
Proof.
  intros c H. unfold json.htmlSafeSet in H.
  apply andb_prop in H as [H Hn]. apply andb_prop in H as [Hlo _].
  apply negb_true_iff in Hn. repeat apply orb_false_elim in Hn as [Hn ?].
  apply Z.leb_le in Hlo. unfold inert_byte.
  repeat split; try lia; now apply Z.eqb_neq.
Qed.

Lemma inert_escape : forall b, forallb inert_byteb (json.escape_ascii b) = true.
Proof. intros [[] [] [] [] [] [] [] []]; reflexivity. Qed.

Lemma appendString_loop_inert : forall fuel src,
  Forall inert_byte (json.appendString_loop fuel src).
Proof.
  induction fuel as [|fuel IH]; intros src; [constructor|].
  destruct src as [|b rest]; [constructor|].
  cbn [json.appendString_loop].
  destruct (byte_val b <? utf8.RuneSelf) eqn:Hascii.
  - apply Forall_app. split; [|apply IH].
    destruct (json.htmlSafeSet (byte_val b)) eqn:Hsafe.
    + constructor; [now apply inert_safe|constructor].
    + apply inert_bytes, inert_escape.
  - destruct (utf8.DecodeRuneInString (firstn utf8.UTFMax (b :: rest))) as [c size] eqn:Hdec.
    destruct ((c =? utf8.RuneError) && (size =? 1)%nat) eqn:Herr.
    + change (backslash :: to_bytes "ufffd" ++ ?x) with ((backslash :: to_bytes "ufffd") ++ x).
      apply Forall_app. split; [apply inert_bytes; reflexivity|apply IH].
    + apply Z.ltb_ge in Hascii. unfold utf8.RuneSelf in Hascii.
      destruct (DecodeRune_multibyte b rest c size Hascii Hdec Herr)
        as (_ & _ & Hhigh & _).
      destruct ((c =? 0x2028) || (c =? 0x2029)) eqn:Hc.
      * change (backslash :: to_bytes "u202" ++ ?x ++ ?y)
          with ((backslash :: to_bytes "u202" ++ x) ++ y).
        apply Forall_app. split; [|apply IH].
        apply orb_prop in Hc. rewrite !Z.eqb_eq in Hc.
        destruct Hc as [-> | ->]; apply inert_bytes; reflexivity.
      * apply Forall_app. split; [|apply IH].
        eapply Forall_impl; [|exact Hhigh]. intros a Ha. now apply inert_high.
Qed.

Lemma appendString_inert : forall s, Forall inert_byte (json.appendString s).
Proof.
  intros s. unfold json.appendString.
  apply Forall_app. split; [apply inert_bytes; reflexivity|].
  apply Forall_app. split; [apply appendString_loop_inert|apply inert_bytes; reflexivity].
Qed.

(** X8. Whatever bytes the identifier of a job holds, the body sent has
    no control character and none of [<], [>], [&] in it: line feeds,
    quotes and the like in an identifier reach the wire escaped. *)
Theorem payload_inert : forall p uuid,
  Forall inert_byte (to_bytes (http.Body (notification p uuid))).
Proof.
  intros p uuid. cbn [notification http.Body]. unfold payload.
  rewrite Marshal_JobStatusUpdate. cbn [fst UUID]. rewrite to_of_bytes.
  apply Forall_app. split; [apply inert_bytes; reflexivity|].
  apply Forall_app. split; [apply appendString_inert|].
  apply Forall_app. split; [apply inert_bytes; reflexivity|].
  apply Forall_app. split; [apply appendString_inert|apply inert_bytes; reflexivity].
Qed.

(** An identifier with a line feed and a quote in it. *)
Example payload_escapes :
  payload (String (byte_of 0x0A) (String dquote "a"))
  = ("{" ++ String dquote "uuid" ++ String dquote ":" ++ String dquote
       (String backslash "n" ++ String backslash (String dquote "a"))
     ++ String dquote "}")%string.
Proof. reflexivity. Qed.

(** ** The shape of the batches *)

Lemma batch_loop_shape : forall B, 0 < B -> forall fuel l acc out,
  batch_loop fuel B l acc = Batches out ->
  exists full last,
    out = acc ++ full ++ [last]
    /\ Forall (fun c => Z.of_nat (List.length c) = B) full
    /\ Z.of_nat (List.length last) <= B
    /\ (l <> [] -> last <> [])
    /\ Z.of_nat (List.length l)
       = B * Z.of_nat (List.length full) + Z.of_nat (List.length last).
Proof.
  intros B HB. induction fuel as [|fuel IH]; intros l acc out H; [discriminate|].
  cbn [batch_loop] in H.
  destruct (B <? Z.of_nat (List.length l)) eqn:Hcmp.
  - apply Z.ltb_lt in Hcmp.
    replace (B <? 0) with false in H by (symmetry; apply Z.ltb_ge; lia).
    apply IH in H as (full & last & -> & Hfull & Hlast & Hne & Hlen).
    exists (firstn (Z.to_nat B) l :: full), last.
    rewrite length_skipn in Hlen.
    split; [rewrite <- app_assoc; reflexivity|]. split; [|split; [exact Hlast|split]].
    + constructor; [rewrite length_firstn; lia|exact Hfull].
    + intros _. apply Hne. intros Hnil.
      apply (f_equal (@List.length string)) in Hnil.
      rewrite length_skipn in Hnil. cbn in Hnil. lia.
    + cbn [List.length]. lia.
  - apply Z.ltb_ge in Hcmp. injection H as <-. exists [], l.
    split; [reflexivity|]. split; [constructor|]. split; [exact Hcmp|]. split; [auto|].
    cbn [List.length]. lia.
Qed.

(** X9. With a positive batch size every batch but the last is full, and
    the last batch is empty only when there are no candidates at all (in
    which case it is the only batch): no barrier is ever taken for
    nothing while there is work. *)
Theorem Batcher_batches_full : forall (unpropped : list string) (B : Z) fuel out,
  0 < B ->
  Batcher fuel B unpropped = Batches out ->
  exists full last,
    out = full ++ [last]
    /\ Forall (fun chunk => Z.of_nat (List.length chunk) = B) full
    /\ Z.of_nat (List.length last) <= B
    /\ (last = [] <-> unpropped = [])
    /\ (unpropped = [] -> full = []).
Proof.
  intros unpropped B fuel out HB Hrun.
  destruct (batch_loop_shape B HB fuel unpropped [] out Hrun)
    as (full & last & Hout & Hfull & Hlast & Hne & Hlen).
  exists full, last. cbn [app] in Hout.
  split; [exact Hout|]. split; [exact Hfull|]. split; [exact Hlast|]. split; [split|].
  - intros Hnil. destruct unpropped; [reflexivity|]. exfalso. apply Hne; [discriminate|exact Hnil].
  - intros ->. cbn [List.length] in Hlen. destruct last; [reflexivity|].
    cbn [List.length] in Hlen. destruct full; cbn [List.length] in Hlen; nia.
  - intros ->. cbn [List.length] in Hlen. destruct full; [reflexivity|].
    cbn [List.length] in Hlen. nia.
Qed.

Lemma Batcher_batches_full_witness :
  0 < 2
  /\ Batcher 6 2 ["a"; "b"; "c"; "d"] = Batches [["a"; "b"]; ["c"; "d"]]
  /\ exists full last,
       [["a"; "b"]; ["c"; "d"]] = full ++ [last]
       /\ Forall (fun chunk => Z.of_nat (List.length chunk) = 2) full
       /\ (last = [] <-> ["a"; "b"; "c"; "d"] = []).
Proof.
  split; [lia|]. split; [reflexivity|].
  destruct (Batcher_batches_full ["a"; "b"; "c"; "d"] 2 6 [["a"; "b"]; ["c"; "d"]])
    as (full & last & Hout & Hfull & _ & Hlast & _); [lia|reflexivity|].
  exists full, last. auto.
Defined.



(** X11. Outside the positive batch sizes the batching loop does not do
    its work.  With a negative batch size it panics on every input, at
    the first slicing.  With a batch size of zero it returns on an empty
    candidate list, with one empty batch, and never returns on any
    other: no amount of fuel gets it to the end. *)
Theorem Batcher_nonpositive : forall (unpropped : list string) (B : Z) fuel,
  (B < 0 -> Batcher (S fuel) B unpropped = SlicePanic)
  /\ (B = 0 -> unpropped = [] -> Batcher (S fuel) B unpropped = Batches [[]])
  /\ (B = 0 -> unpropped <> [] -> Batcher fuel B unpropped = OutOfFuel).
Proof.
  intros unpropped B fuel. unfold Batcher. split; [|split].
  - intros HB. cbn [batch_loop].
    replace (B <? Z.of_nat (List.length unpropped)) with true
      by (symmetry; apply Z.ltb_lt; lia).
    replace (B <? 0) with true by (symmetry; apply Z.ltb_lt; lia).
    reflexivity.
  - intros -> ->. reflexivity.
  - intros -> Hne. destruct unpropped as [|x l]; [contradiction|].
    apply Batcher_zero_diverges.
Qed.

Lemma Batcher_nonpositive_witness :
  -1 < 0 /\ Batcher 3 (-1) ["a"; "b"] = SlicePanic
  /\ Batcher 7 0 ["a"] = OutOfFuel.
Proof.
  split; [lia|].
  destruct (Batcher_nonpositive ["a"; "b"] (-1) 2) as (Hneg & _).
  destruct (Batcher_nonpositive ["a"] 0 7) as (_ & _ & Hzero).
  split; [apply Hneg; lia|apply Hzero; [reflexivity|discriminate]].
Defined.

(** ** More about executions *)

Lemma sample_cycle_exec : exec sample_config initial sample_cycle next_cycle_state.
Proof.
  unfold sample_cycle.
  eapply exec_app; [exact sample_exec|].
  change [?l1; ?l2; ?l3; ?l4; ?l5; ?l6; ?l7]
    with ((((((([] ++ [l1]) ++ [l2]) ++ [l3]) ++ [l4]) ++ [l5]) ++ [l6]) ++ [l7]).
  repeat (eapply exec_snoc); [apply exec_nil| | | | | | |].
  - apply (step_return sample_config sample_state net_refused task_a [] []);
      [discriminate|reflexivity|apply goroutine_of_runs].
  - apply (step_barrier sample_config
             {| pc := AtJobs [] [["c"]]; wg := 0; in_flight := []; cycle := 0; batch := 1 |});
      reflexivity.
  - apply (step_batch sample_config
             {| pc := AtBatches [["c"]]; wg := 0; in_flight := []; cycle := 0; batch := 1 |}).
    reflexivity.
  - apply (step_go sample_config
             {| pc := AtJobs ["c"] []; wg := 0; in_flight := []; cycle := 0; batch := 2 |}).
    reflexivity.
  - apply (step_return sample_config
             {| pc := AtJobs [] []; wg := 1; in_flight := [task_c]; cycle := 0; batch := 2 |}
             (net_status 200) task_c [] []);
      [discriminate|reflexivity|apply goroutine_of_runs].
  - apply (step_barrier sample_config
             {| pc := AtJobs [] []; wg := 0; in_flight := []; cycle := 0; batch := 2 |});
      reflexivity.
  - apply (step_cycle_end sample_config
             {| pc := AtBatches []; wg := 0; in_flight := []; cycle := 0; batch := 2 |}).
    reflexivity.
Qed.

Lemma started_jobs_app : forall c tr1 tr2,
  started_jobs c (tr1 ++ tr2) = started_jobs c tr1 ++ started_jobs c tr2.
Proof.
  intros c tr1 tr2. induction tr1 as [|l tr1 IH]; [reflexivity|].
  destruct l; cbn [app started_jobs]; try exact IH.
  destruct (Nat.eqb (t_cycle t) c); [cbn [app]; f_equal|]; exact IH.
Qed.

Lemma started_jobs_none : forall c tr,
  (forall t, In (LGo t) tr -> (t_cycle t < c)%nat) -> started_jobs c tr = [].
Proof.
  intros c tr. induction tr as [|l tr IH]; intros H; [reflexivity|].
  assert (Htl : forall t, In (LGo t) tr -> (t_cycle t < c)%nat)
    by (intros t Ht; apply H; right; exact Ht).
  destruct l; cbn [started_jobs]; try (apply IH; exact Htl).
  replace (Nat.eqb (t_cycle t) c) with false; [apply IH; exact Htl|].
  symmetry. apply Nat.eqb_neq. specialize (H t (or_introl eq_refl)). lia.
Qed.

Lemma step_cycle_mono : forall cfg s l s',
  step cfg s l s' -> (cycle s <= cycle s')%nat.
Proof. intros cfg s l s' H. inversion H; subst; cbn [cycle]; lia. Qed.

Lemma cycle_end_bounded : forall cfg tr s,
  exec cfg initial tr s -> forall c, In (LCycleEnd c) tr -> (c < cycle s)%nat.
Proof.
  intros cfg tr s H. induction H as [|s tr s' l s'' _ IH Hstep].
  - intros c [].
  - intros c Hin. pose proof (step_cycle_mono cfg s' l s'' Hstep) as Hmono.
    apply in_app_or in Hin as [Hin|[Heq|[]]].
    + specialize (IH c Hin). lia.
    + subst l. inversion Hstep; subst. cbn [cycle]. lia.
Qed.

(** The jobs of a query are started in its order: those started so far
    and those still to start make up the answer. *)
Lemma jobs_progress : forall cfg tr s,
  exec cfg initial tr s ->
  forall c srv ids es, In (LQuery c srv ids es) tr ->
    exists rest,
      ids = started_jobs c tr ++ rest
      /\ ((c < cycle s)%nat -> rest = [])
      /\ (c = cycle s -> in_cycle (pc s) -> rest = jobs_left (pc s)).
Proof.
  intros cfg tr s H. remember initial as s0 eqn:Hs0.
  induction H as [|s tr s' l0 s'' Hexec IH Hstep].
  - intros c srv ids es [].
  - subst s. intros c srv ids es Hin. specialize (IH eq_refl).
    rewrite started_jobs_app.
    apply in_app_or in Hin as [Hin|[Heq|[]]]; [|subst l0].
    + destruct (IH c srv ids es Hin) as (rest & Hids & Hdone & Hnow).
      destruct (work_bounded cfg tr s' Hexec _ c Hin eq_refl) as [Hle Hlt].
      inversion Hstep; subst; cbn [pc cycle started_jobs app] in *;
        rewrite ?app_nil_r.
      * (* the next query *)
        exists rest. specialize (Hlt H). repeat split; auto; intros; lia.
      * exists rest. repeat split; auto; try (intros _ []).
      * exists rest. repeat split; auto; try (intros _ []).
      * (* next batch *)
        exists rest. repeat split; auto. intros Hc _.
        rewrite H in Hnow. apply (Hnow Hc I).
      * (* go *)
        subst t. cbn [t_cycle t_jobExtID].
        destruct (Nat.eqb (cycle s') c) eqn:Hc.
        -- apply Nat.eqb_eq in Hc. subst c.
           rewrite H in Hnow. cbn [jobs_left] in Hnow.
           specialize (Hnow eq_refl I). subst rest.
           exists (jobs ++ List.concat batches). rewrite <- !app_assoc.
           repeat split; auto; intros; lia.
        -- apply Nat.eqb_neq in Hc. rewrite app_nil_r.
           exists rest. repeat split; auto. intros Heq. congruence.
      * (* return *)
        exists rest. repeat split; auto.
      * exists rest. repeat split; auto; try (intros _ []).
      * (* barrier *)
        exists rest. repeat split; auto. intros Hc _.
        rewrite H in Hnow. apply (Hnow Hc I).
      * (* end of the cycle *)
        exists rest. split; [reflexivity|]. split; [|intros; lia].
        intros _. destruct (Nat.eq_dec c (cycle s')) as [->|Hne].
        -- rewrite H in Hnow. apply Hnow; [reflexivity|exact I].
        -- apply Hdone. lia.
      * exists rest. repeat split; auto; try (intros _ []).
    + inversion Hstep; subst. cbn [pc cycle started_jobs]. rewrite app_nil_r.
      rewrite started_jobs_none.
      * exists ids. split; [reflexivity|]. split; [intros; lia|]. intros _ _.
        unfold Batcher in *.
        match goal with
        | Hb : batch_loop _ _ _ _ = Batches _ |- _ =>
          apply batch_loop_sound in Hb as (bs & -> & Hcat & _)
        end.
        cbn [app jobs_left]. symmetry. exact Hcat.
      * intros t Ht.
        apply (work_bounded cfg tr s' Hexec (LGo t) (t_cycle t) Ht eq_refl).
        assumption.
Qed.

(** X12. One goroutine per candidate, in order.  At any moment the jobs
    for which goroutines have been started in a cycle are an initial
    part of the answer to the query of that cycle, and once the cycle
    has ended they are that answer exactly: no candidate is skipped,
    none is dispatched twice, and the order of the answer is kept. *)
Theorem one_goroutine_per_candidate : forall cfg tr s,
  exec cfg initial tr s ->
  forall c srv ids es, In (LQuery c srv ids es) tr ->
    (exists rest, ids = started_jobs c tr ++ rest)
    /\ (In (LCycleEnd c) tr -> started_jobs c tr = ids).
Proof.
  intros cfg tr s Hexec c srv ids es Hin.
  destruct (jobs_progress cfg tr s Hexec c srv ids es Hin) as (rest & Hids & Hdone & _).
  split; [exists rest; exact Hids|].
  intros Hend. apply (cycle_end_bounded cfg tr s Hexec) in Hend.
  rewrite (Hdone Hend), app_nil_r in Hids. symmetry. exact Hids.
Qed.

Lemma one_goroutine_per_candidate_witness :
  exec sample_config initial sample_cycle next_cycle_state
  /\ In (LCycleEnd 0) sample_cycle
  /\ started_jobs 0 sample_cycle = ["a"; "c"].
Proof.
  split; [exact sample_cycle_exec|].
  assert (Hend : In (LCycleEnd 0) sample_cycle) by (vm_compute; tauto).
  split; [exact Hend|].
  apply (one_goroutine_per_candidate sample_config sample_cycle next_cycle_state
           sample_cycle_exec 0%nat sample_server ["a"; "c"]
           [SpanStart "propagation loop"; SqlQuery sample_db 3; RowsClose]).
  - left. reflexivity.
  - exact Hend.
Defined.

(** X13. The counter of the WaitGroup is never negative, so [wg.Done]
    never panics, and while the process runs it is the number of
    goroutines started and not yet returned. *)
Theorem waitgroup_counts : forall cfg tr s,
  exec cfg initial tr s ->
  0 <= wg s /\ (alive s -> wg s = Z.of_nat (List.length (in_flight s))).
Proof.
  intros cfg tr s Hexec.
  assert (Hlive : forall tr s, exec cfg initial tr s -> alive s ->
                               wg s = Z.of_nat (List.length (in_flight s))).
  { intros tr0 s0 H Halive. destruct (invariant_holds cfg tr0 s0 H) as [_ Hpc].
    destruct (pc s0) eqn:Hp.
    - destruct Hpc as [Hwg _]. exact Hwg.
    - destruct Hpc as [Hwg _]. exact Hwg.
    - destruct Hpc as [Hwg _]. exact Hwg.
    - exfalso. apply (Halive code). exact Hp. }
  split; [|apply (Hlive tr s Hexec)].
  remember initial as s0 eqn:Hs0. destruct Hexec as [s0|s0 tr s' l s'' Hexec Hstep].
  - subst s0. cbn. lia.
  - subst s0. pose proof (Hlive tr s' Hexec (step_not_exited cfg s' l s'' Hstep)) as Hprev.
    inversion Hstep; subst; cbn [wg]; try lia.
    rewrite Hprev. match goal with H : in_flight s' = _ |- _ => rewrite H end.
    rewrite length_app. cbn [List.length]. lia.
Qed.

Lemma waitgroup_counts_witness :
  exec sample_config initial sample_trace sample_state
  /\ alive sample_state
  /\ wg sample_state = Z.of_nat (List.length (in_flight sample_state)).
Proof.
  split; [exact sample_exec|].
  assert (Halive : alive sample_state) by (intros code; discriminate).
  split; [exact Halive|].
  apply (waitgroup_counts sample_config sample_trace sample_state sample_exec). exact Halive.
Defined.

Lemma batch_loop_panics : forall B fuel l acc,
  batch_loop fuel B l acc = SlicePanic -> B < 0.
Proof.
  intros B. induction fuel as [|fuel IH]; intros l acc H; [discriminate|].
  cbn [batch_loop] in H.
  destruct (B <? Z.of_nat (List.length l)); [|discriminate].
  destruct (B <? 0) eqn:Hneg; [now apply Z.ltb_lt|].
  apply IH in H. exact H.
Qed.

(** X14. How the loop ends, for a batch size other than zero.  The
    process leaves the loop only by a fatal log entry (exit status 1),
    after a failed query or a failure of the diagnostics listener, or,
    with a negative batch size, by the panic of the batching loop (exit
    status 2); whichever it is, it is the last step.  No goroutine ever
    panics, and with a positive batch size nothing does.  A batch size
    of zero is left out: there the batching loop does not return on a
    non-empty answer, and the steps do not say how the process, filling
    its memory, then ends. *)
Theorem loop_exits : forall cfg tr s code,
  cfg_batchSize cfg <> 0 ->
  exec cfg initial tr s ->
  pc s = Exited code ->
  exists tr0 l,
    tr = tr0 ++ [l]
    /\ ((code = 1 /\ ((exists c srv err es, l = LFatal c srv err es)
                      \/ exists msg, l = LListenerFatal msg))
        \/ (code = 2 /\ cfg_batchSize cfg < 0 /\ exists c srv, l = LBatchPanic c srv)).
Proof.
  intros cfg tr s code _ Hexec Hpc.
  remember initial as s0 eqn:Hs0. destruct Hexec as [s0|s0 tr s' l s'' Hexec Hstep].
  - subst s0. discriminate.
  - exists tr, l. split; [reflexivity|].
    inversion Hstep; subst; cbn [pc] in Hpc; try discriminate;
      try (pose proof (step_not_exited cfg s' _ _ Hstep code) as Hno; congruence).
    + injection Hpc as <-. left. split; [reflexivity|]. left. eauto.
    + injection Hpc as <-. right. split; [reflexivity|]. split; [|eauto].
      unfold Batcher in *. eapply batch_loop_panics. eassumption.
    + exfalso. eapply goroutine_never_panics. eassumption.
    + injection Hpc as <-. left. split; [reflexivity|]. right. eauto.
Qed.

Lemma loop_exits_witness :
  cfg_batchSize sample_config <> 0
  /\ exec sample_config initial [fatal_label] exited_state
  /\ pc exited_state = Exited 1
  /\ exists tr0 l, [fatal_label] = tr0 ++ [l].
Proof.
  assert (HB : cfg_batchSize sample_config <> 0) by discriminate.
  split; [exact HB|]. split; [exact fatal_exec|]. split; [reflexivity|].
  destruct (loop_exits sample_config [fatal_label] exited_state 1 HB fatal_exec eq_refl)
    as (tr0 & l & Htr & _).
  exists tr0, l. exact Htr.
Defined.

Lemma store_after_no_write : forall es st,
  forallb (fun e => negb (writes e)) es = true -> store_after es st = st.
Proof.
  induction es as [|e es IH]; intros st H; [reflexivity|].
  cbn in H. apply andb_prop in H as [He Hes].
  unfold store_after. cbn [fold_left]. fold (store_after es (store_after_effect st e)).
  destruct e; cbn in He; try discriminate; cbn [store_after_effect]; now apply IH.
Qed.

Lemma no_write_untouched : forall es,
  forallb (fun e => negb (touches_db e)) es = true ->
  forallb (fun e => negb (writes e)) es = true.
Proof.
  intros es H. rewrite forallb_forall in *. intros e He. specialize (H e He).
  destruct e; cbn in *; auto; discriminate.
Qed.

Lemma Unpropagated_no_write : forall srv d T,
  forallb (fun e => negb (writes e)) (effects (Unpropagated srv d T)) = true.
Proof.
  intros srv d T. unfold Unpropagated.
  destruct (sql.QueryContext srv d T) as [rows|err]; [|reflexivity].
  destruct (scan_rows (sql.fetched rows) []); reflexivity.
Qed.

Lemma goroutine_no_write : forall net d T uri id,
  forallb (fun e => negb (writes e)) (effects (propagator_goroutine net d T uri id)) = true.
Proof.
  intros net d T uri id. rewrite propagator_goroutine_runs. cbn [effects fst forallb writes negb andb].
  rewrite forallb_app. apply andb_true_intro. split.
  - apply no_write_untouched, Propagate_no_db_effect.
  - destruct (result (Propagate net {| db := d; appsURI := uri |} id)); reflexivity.
Qed.

Lemma step_no_write : forall cfg s l s',
  step cfg s l s' -> forallb (fun e => negb (writes e)) (label_effects l) = true.
Proof.
  intros cfg s l s' H. inversion H; subst; cbn [label_effects]; try reflexivity.
  - cbn [forallb writes negb andb].
    match goal with Hq : Unpropagated ?srv ?d ?T = _ |- _ =>
      pose proof (Unpropagated_no_write srv d T) as Hw; rewrite Hq in Hw; exact Hw end.
  - cbn [forallb writes negb andb]. rewrite forallb_app. apply andb_true_intro.
    split; [|reflexivity].
    match goal with Hq : Unpropagated ?srv ?d ?T = _ |- _ =>
      pose proof (Unpropagated_no_write srv d T) as Hw; rewrite Hq in Hw; exact Hw end.
  - match goal with Hg : propagator_goroutine ?n ?d ?T ?u ?i = _ |- _ =>
      pose proof (goroutine_no_write n d T u i) as Hw; rewrite Hg in Hw; exact Hw end.
  - match goal with Hg : propagator_goroutine ?n ?d ?T ?u ?i = _ |- _ =>
      pose proof (goroutine_no_write n d T u i) as Hw; rewrite Hg in Hw; exact Hw end.
Qed.

(** X15. The program only reads.  Over any execution of the loop, all
    the queries, dispatches and exits together perform no statement
    that writes to the database: the table is, as far as this program
    goes, what it was; marking a status as propagated and counting the
    attempts is left to others. *)
Theorem program_never_writes : forall cfg tr s (st : Store),
  exec cfg initial tr s ->
  forallb (fun e => negb (writes e)) (trace_effects tr) = true
  /\ store_after (trace_effects tr) st = st.
Proof.
  intros cfg tr s st Hexec.
  assert (H : forallb (fun e => negb (writes e)) (trace_effects tr) = true).
  { clear st. induction Hexec as [|s tr s' l s'' _ IH Hstep]; [reflexivity|].
    unfold trace_effects in *. rewrite map_app, concat_app, forallb_app, IH.
    cbn [map List.concat]. rewrite app_nil_r.
    apply (step_no_write cfg s' l s'' Hstep). }
  split; [exact H|apply store_after_no_write, H].
Qed.

Lemma program_never_writes_witness :
  exec sample_config initial sample_cycle next_cycle_state
  /\ store_after (trace_effects sample_cycle) (sql.table sample_server)
     = sql.table sample_server.
Proof.
  split; [exact sample_cycle_exec|].
  apply (program_never_writes sample_config sample_cycle next_cycle_state _ sample_cycle_exec).
Defined.

(** X16. Past a barrier nothing is left behind.  Whenever the main
    goroutine is between two batches or at the top of the loop, every
    goroutine started so far has returned: the trace holds as many
    returns of it as starts. *)
Theorem all_returned_between_batches : forall cfg tr s,
  exec cfg initial tr s ->
  pc s = AtCycleStart \/ (exists batches, pc s = AtBatches batches) ->
  forall t, returns t tr = starts t tr.
Proof.
  intros cfg tr s Hexec Hpc t.
  destruct (invariant_holds cfg tr s Hexec) as [_ Hinv].
  assert (Halive : forall code, pc s <> Exited code)
    by (destruct Hpc as [Hp|[bs Hp]]; rewrite Hp; discriminate).
  pose proof (in_flight_balance cfg tr s Hexec Halive t) as Hbal.
  assert (Hnil : in_flight s = []).
  { destruct Hpc as [Hp|[bs Hp]]; rewrite Hp in Hinv;
      destruct Hinv as (_ & Hnil & _); exact Hnil. }
  rewrite Hnil in Hbal. cbn [count_occ] in Hbal. lia.
Qed.

Lemma all_returned_between_batches_witness :
  exec sample_config initial sample_cycle next_cycle_state
  /\ pc next_cycle_state = AtCycleStart
  /\ returns task_a sample_cycle = starts task_a sample_cycle
  /\ starts task_a sample_cycle = 1%nat.
Proof.
  split; [exact sample_cycle_exec|]. split; [reflexivity|]. split; [|reflexivity].
  apply (all_returned_between_batches sample_config sample_cycle next_cycle_state
           sample_cycle_exec).
  left. reflexivity.
Defined.




(** ** Start-up *)

Ltac boot_cases H :=
  unfold boot in H;
  repeat match type of H with
         | context [if ?c then _ else _] => destruct c eqn:?
         | context [match ?x with inl _ => _ | inr _ => _ end] => destruct x eqn:?
         | context [match ?x with Some _ => _ | None => _ end] => destruct x eqn:?
         end.

(** X18. The loop is entered only with everything in place: the
    configuration read, the connector made, the database connected and
    answering a ping, in that order and with the diagnostics listener
    started last.  The loop then runs with the retry ceiling and the
    batch size of the flags, against the database named by [--db] when
    that flag is given and by the configuration's [db.uri] otherwise;
    either way the configuration's [db.uri] afterwards names the
    database connected to. *)
Theorem boot_enters_loop : forall f h es cfg settings,
  boot f h = (es, Loop cfg settings) ->
  flag_version f = false
  /\ flag_config f <> EmptyString
  /\ (exists read,
        InitDefaults h (flag_config f) = inl read
        /\ sql.dsn (cfg_db cfg)
           = (if String.eqb (flag_db f) EmptyString then GetString read "db.uri" else flag_db f)
        /\ cfg_appsURI cfg = GetString read "apps.callbacks_uri")
  /\ NewDefaultConnector h = None
  /\ Connect h (sql.dsn (cfg_db cfg)) = None
  /\ Ping h (sql.dsn (cfg_db cfg)) = None
  /\ GetString settings "db.uri" = sql.dsn (cfg_db cfg)
  /\ cfg_maxRetries cfg = flag_retries f
  /\ cfg_batchSize cfg = flag_batch_size f
  /\ exists before,
       es = before
            ++ [BootNewConnector; BootConnect (sql.dsn (cfg_db cfg));
                BootPing (sql.dsn (cfg_db cfg));
                BootLog InfoLevel "Connected to the database"; BootListener]
       /\ forallb (fun e => negb (contacts_db e)) before = true.
Proof.
  intros f h es cfg settings H. boot_cases H; try discriminate;
    injection H as <- <- <-;
    cbn [cfg_db cfg_appsURI cfg_maxRetries cfg_batchSize sql.dsn];
    (split; [reflexivity|]); (split; [now apply String.eqb_neq|]);
    (split; [eexists; split; [reflexivity|split; reflexivity]|]);
    (split; [reflexivity|]); (split; [assumption|]); (split; [assumption|]);
    (split; [reflexivity|]); (split; [reflexivity|]); (split; [reflexivity|]);
    exists [BootReadConfig (flag_config f); BootLog InfoLevel "Done reading config.";
            BootLog InfoLevel "Connecting to the database..."];
    split; reflexivity.
Qed.

Lemma boot_enters_loop_witness :
  exists es cfg settings,
    boot (sample_flags "postgres://other") sample_host = (es, Loop cfg settings)
    /\ sql.dsn (cfg_db cfg) = "postgres://other"
    /\ GetString settings "db.uri" = "postgres://other"
    /\ cfg_appsURI cfg = "http://apps/callbacks".
Proof.
  eexists _, _, _. split; [reflexivity|].
  destruct (boot_enters_loop (sample_flags "postgres://other") sample_host _ _ _ eq_refl)
    as (_ & _ & (read & Hread & Hdsn & Happs) & _ & _ & _ & Hset & _).
  injection Hread as <-.
  split; [exact Hdsn|]. split; [exact Hset|exact Happs].
Defined.

Lemma startup_halt_quiet : forall tracer args h es code,
  startup tracer args h = (es, Halt code) ->
  ~ In BootListener es
  /\ (code <> 1 -> forallb (fun e => negb (contacts_db e)) es = true).
Proof.
  intros tracer args h es code H. unfold startup in H.
  destruct tracer as [msg|]; [|destruct args as [f| |msg]];
    try boot_cases H; try discriminate; injection H as <- <-;
    (split; [cbn [In app]; intuition discriminate
            |intros Hcode; first [reflexivity | exfalso; apply Hcode; reflexivity]]).
Qed.

Lemma startup_loop : forall tracer args h es cfg settings,
  startup tracer args h = (es, Loop cfg settings)
  <-> tracer = None
      /\ exists f es', args = ParseOk f /\ es = BootTracer :: es'
                       /\ boot f h = (es', Loop cfg settings).
Proof.
  intros tracer args h es cfg settings. unfold startup. split.
  - destruct tracer as [msg|]; [discriminate|].
    destruct args as [f| |msg]; try discriminate.
    destruct (boot f h) as [es' end_] eqn:Hboot. intros [= <- ->].
    split; [reflexivity|]. exists f, es'.
    split; [reflexivity|]. split; [reflexivity|exact Hboot].
  - intros (-> & f & es' & -> & -> & Hboot). rewrite Hboot. reflexivity.
Qed.

(** X19. How [main] ends before its loop.  Taking what the tracer
    provider, [flag.Parse] and the calls of start-up return as given,
    the program stops short of the loop in exactly nine cases, each
    with its output and its status: the tracer provider reports an
    error (fatal entry, status 1); the command line does not parse
    (error and usage, status 2) or asks for help (usage, status 0);
    [--version] is given (version, status 0, whatever else is given);
    [--config] is missing (message and flag defaults, [os.Exit(-1)]);
    the configuration cannot be read (error entry, [os.Exit(-1)]); the
    connector, the connection or the ping fails (fatal entry with that
    error, status 1, the later calls not made).  In none of them is
    the diagnostics listener started, and whenever the status is not 1
    the database has not been reached for.  In every other case the
    loop is entered, as [boot] says. *)
Theorem startup_halts : forall tracer args h es code,
  (startup tracer args h = (es, Halt code)
   <-> (exists msg, tracer = Some msg
                    /\ es = [BootTracer; BootLog FatalLevel msg] /\ code = 1)
       \/ (tracer = None
           /\ ((exists msg, args = ParseBad msg
                            /\ es = [BootTracer; BootUsage (Some msg)] /\ code = 2)
               \/ (args = ParseHelp /\ es = [BootTracer; BootUsage None] /\ code = 0)
               \/ exists f, args = ParseOk f
                  /\ ((flag_version f = true
                       /\ es = [BootTracer; BootVersion] /\ code = 0)
                      \/ (flag_version f = false
                          /\ flag_config f = EmptyString
                          /\ es = [BootTracer; BootPrint "Error: --config must be set.";
                                   BootDefaults]
                          /\ code = -1)
                      \/ (flag_version f = false
                          /\ flag_config f <> EmptyString
                          /\ exists msg,
                               InitDefaults h (flag_config f) = inr msg
                               /\ es = [BootTracer; BootReadConfig (flag_config f);
                                        BootLog ErrorLevel msg]
                               /\ code = -1)
                      \/ (flag_version f = false
                          /\ flag_config f <> EmptyString
                          /\ code = 1
                          /\ exists read msg,
                               InitDefaults h (flag_config f) = inl read
                               /\ let uri := if String.eqb (flag_db f) EmptyString
                                             then GetString read "db.uri" else flag_db f in
                                  let reached :=
                                    [BootTracer; BootReadConfig (flag_config f);
                                     BootLog InfoLevel "Done reading config.";
                                     BootLog InfoLevel "Connecting to the database...";
                                     BootNewConnector] in
                                  (NewDefaultConnector h = Some msg
                                   /\ es = reached ++ [BootLog FatalLevel msg])
                                  \/ (NewDefaultConnector h = None
                                      /\ Connect h uri = Some msg
                                      /\ es = reached ++ [BootConnect uri;
                                                          BootLog FatalLevel msg])
                                  \/ (NewDefaultConnector h = None
                                      /\ Connect h uri = None
                                      /\ Ping h uri = Some msg
                                      /\ es = reached ++ [BootConnect uri; BootPing uri;
                                                          BootLog FatalLevel msg]))))))
  /\ (startup tracer args h = (es, Halt code) ->
      ~ In BootListener es
      /\ (code <> 1 -> forallb (fun e => negb (contacts_db e)) es = true))
  /\ (forall cfg settings,
        startup tracer args h = (es, Loop cfg settings)
        <-> tracer = None
            /\ exists f es', args = ParseOk f /\ es = BootTracer :: es'
                             /\ boot f h = (es', Loop cfg settings)).
Proof.
  intros tracer args h es code.
  split; [split|split; [apply startup_halt_quiet|apply startup_loop]].
  { unfold startup. destruct tracer as [msg|].
      - intros [= <- <-]. left. eauto.
      - intros H. right. split; [reflexivity|].
        destruct args as [f| |msg].
        + right. right. exists f. split; [reflexivity|].
          unfold boot in H.
          destruct (flag_version f) eqn:Hv.
          { injection H as <- <-. left. auto. }
          right.
          destruct (String.eqb (flag_config f) EmptyString) eqn:Hc.
          { injection H as <- <-. apply String.eqb_eq in Hc. left. auto. }
          right. apply String.eqb_neq in Hc.
          destruct (InitDefaults h (flag_config f)) as [read|msg] eqn:Hread.
          2:{ injection H as <- <-. left. split; [reflexivity|]. split; [exact Hc|]. eauto. }
          right. split; [reflexivity|]. split; [exact Hc|].
          destruct (String.eqb (flag_db f) EmptyString) eqn:Hdb;
            destruct (NewDefaultConnector h) as [m1|] eqn:Hn;
            try (injection H as <- <-; split; [reflexivity|];
                 exists read, m1; split; [reflexivity|]; left; split; reflexivity).
          * destruct (Connect h (GetString read "db.uri")) as [m2|] eqn:Hco.
            { injection H as <- <-. split; [reflexivity|].
              exists read, m2. split; [reflexivity|]. right. left. auto. }
            destruct (Ping h (GetString read "db.uri")) as [m3|] eqn:Hp; [|discriminate].
            injection H as <- <-. split; [reflexivity|].
            exists read, m3. split; [reflexivity|]. right. right. auto.
          * destruct (Connect h (flag_db f)) as [m2|] eqn:Hco.
            { injection H as <- <-. split; [reflexivity|].
              exists read, m2. split; [reflexivity|]. right. left. auto. }
            destruct (Ping h (flag_db f)) as [m3|] eqn:Hp; [|discriminate].
            injection H as <- <-. split; [reflexivity|].
            exists read, m3. split; [reflexivity|]. right. right. auto.
        + injection H as <- <-. right. left. auto.
        + injection H as <- <-. left. eauto. }
  { unfold startup.
    intros [(msg & -> & -> & ->)|[-> [(msg & -> & -> & ->)|[(-> & -> & ->)|(f & -> & H)]]]];
      try reflexivity.
    unfold boot.
    destruct H as [(Hv & -> & ->)|[(Hv & Hc & -> & ->)|[(Hv & Hc & msg & Hr & -> & ->)
                  |(Hv & Hc & -> & read & msg & Hr & H)]]]; rewrite Hv; try reflexivity.
    + rewrite Hc. reflexivity.
    + apply String.eqb_neq in Hc. rewrite Hc, Hr. reflexivity.
    + apply String.eqb_neq in Hc. rewrite Hc, Hr. cbv zeta in H.
      destruct (String.eqb (flag_db f) EmptyString);
        destruct H as [(Hn & ->)|[(Hn & Hco & ->)|(Hn & Hco & Hp & ->)]];
        rewrite Hn, ?Hco, ?Hp; reflexivity. }
Qed.

Lemma startup_halts_witness :
  startup None (ParseOk (sample_flags "")) host_db_down
  = ([BootTracer; BootReadConfig "/etc/jobservices.yml";
      BootLog InfoLevel "Done reading config.";
      BootLog InfoLevel "Connecting to the database..."; BootNewConnector;
      BootConnect "postgres://de@db/de";
      BootLog FatalLevel "dial tcp: connection refused"], Halt 1)
  /\ startup None (ParseBad "flag provided but not defined: -x") sample_host
     = ([BootTracer; BootUsage (Some "flag provided but not defined: -x")], Halt 2)
  /\ ~ In BootListener
         [BootTracer; BootReadConfig "/etc/jobservices.yml";
          BootLog InfoLevel "Done reading config.";
          BootLog InfoLevel "Connecting to the database..."; BootNewConnector;
          BootConnect "postgres://de@db/de";
          BootLog FatalLevel "dial tcp: connection refused"].
Proof.
  split; [reflexivity|]. split.
  - apply (proj1 (startup_halts None (ParseBad "flag provided but not defined: -x")
                    sample_host _ 2)).
    right. split; [reflexivity|]. left. eauto.
  - apply (proj1 (proj2 (startup_halts None (ParseOk (sample_flags "")) host_db_down _ 1))
             eq_refl).
Defined.

(** ** From the query to the notification *)

Lemma query_label_sound : forall cfg tr s,
  exec cfg initial tr s ->
  forall c srv ids es, In (LQuery c srv ids es) tr ->
    exists es0, Unpropagated srv (cfg_db cfg) (cfg_maxRetries cfg) = (es0, (ids, None)).
Proof.
  intros cfg tr s H. induction H as [|s tr s' l s'' _ IH Hstep].
  - intros c srv ids es [].
  - intros c srv ids es Hin. apply in_app_or in Hin as [Hin|[Heq|[]]]; [eauto|].
    subst l. inversion Hstep; subst. eauto.
Qed.

Lemma return_label_sound : forall cfg tr s,
  exec cfg initial tr s ->
  forall t es, In (LReturn t es) tr ->
    exists net, es = effects (goroutine_of cfg net t).
Proof.
  intros cfg tr s H. induction H as [|s tr s' l s'' _ IH Hstep].
  - intros t es [].
  - intros t es Hin. apply in_app_or in Hin as [Hin|[Heq|[]]]; [eauto|].
    subst l. inversion Hstep; subst. exists net. unfold goroutine_of.
    match goal with Hg : propagator_goroutine _ _ _ _ _ = _ |- _ => rewrite Hg end.
    reflexivity.
Qed.

Lemma query_in_cycle : forall cfg tr s,
  exec cfg initial tr s -> in_cycle (pc s) ->
  exists srv ids es, In (LQuery (cycle s) srv ids es) tr.
Proof.
  intros cfg tr s H. remember initial as s0 eqn:Hs0.
  induction H as [|s tr s' l s'' _ IH Hstep].
  - subst s. intros [].
  - intros Hin. specialize (IH Hs0).
    assert (Hkeep : in_cycle (pc s') -> cycle s'' = cycle s' ->
                    exists srv ids es, In (LQuery (cycle s'') srv ids es) (tr ++ [l])).
    { intros Hc ->. destruct (IH Hc) as (srv & ids & es & Hq).
      exists srv, ids, es. apply in_or_app. left. exact Hq. }
    inversion Hstep; subst; cbn [pc cycle] in *; try contradiction;
      try (apply Hkeep; [|reflexivity];
           match goal with Hp : pc s' = _ |- _ => rewrite Hp; exact I end).
    + eexists _, _, _. apply in_or_app. right. left. reflexivity.
    + apply Hkeep; [exact Hin|reflexivity].
Qed.

Lemma in_flight_started : forall cfg tr s,
  exec cfg initial tr s -> forall t, In t (in_flight s) -> In (LGo t) tr.
Proof.
  intros cfg tr s H. remember initial as s0 eqn:Hs0.
  induction H as [|s tr s' l s'' _ IH Hstep].
  - subst s. intros t [].
  - intros t Hin. apply in_or_app.
    inversion Hstep; subst; cbn [in_flight] in Hin; try contradiction;
      try (left; apply IH; [reflexivity|exact Hin]).
    + destruct Hin as [<-|Hin]; [right; left; reflexivity|left; apply IH; auto].
    + left. apply IH; [reflexivity|].
      match goal with Hf : in_flight s' = _ |- _ => rewrite Hf end.
      apply in_app_or in Hin as [Hin|Hin]; apply in_or_app; [left|right; right]; exact Hin.
Qed.

Lemma returned_started : forall cfg tr s,
  exec cfg initial tr s -> forall t es, In (LReturn t es) tr -> In (LGo t) tr.
Proof.
  intros cfg tr s H. remember initial as s0 eqn:Hs0.
  induction H as [|s tr s' l s'' Hexec IH Hstep].
  - intros t es [].
  - subst s. intros t es Hin. apply in_or_app. left.
    apply in_app_or in Hin as [Hin|[Heq|[]]]; [eauto|].
    subst l. inversion Hstep; subst.
    apply (in_flight_started cfg tr s' Hexec).
    match goal with Hf : in_flight s' = _ |- _ => rewrite Hf end.
    apply in_or_app. right. left. reflexivity.
Qed.

Lemma go_label_queried : forall cfg tr s,
  exec cfg initial tr s ->
  forall t, In (LGo t) tr ->
    exists srv ids es, In (LQuery (t_cycle t) srv ids es) tr /\ In (t_jobExtID t) ids.
Proof.
  intros cfg tr s H. remember initial as s0 eqn:Hs0.
  induction H as [|s tr s' l s'' Hexec IH Hstep].
  - intros t [].
  - subst s. intros t Hin. apply in_app_or in Hin as [Hin|[Heq|[]]].
    + destruct (IH eq_refl t Hin) as (srv & ids & es & Hq & Hid).
      exists srv, ids, es. split; [apply in_or_app; left; exact Hq|exact Hid].
    + subst l. inversion Hstep as [| | | |s0 job jobs batches Hpc t0| | | | |]; subst.
      cbn [t_cycle t_jobExtID].
      assert (Hc : in_cycle (pc s')) by (rewrite Hpc; exact I).
      destruct (query_in_cycle cfg tr s' Hexec Hc) as (srv & ids & es & Hq).
      destruct (jobs_progress cfg tr s' Hexec _ srv ids es Hq) as (rest & Hids & _ & Hnow).
      specialize (Hnow eq_refl Hc). rewrite Hpc in Hnow. cbn [jobs_left] in Hnow.
      exists srv, ids, es. split; [apply in_or_app; left; exact Hq|].
      rewrite Hids, Hnow. apply in_or_app. right. left. reflexivity.
Qed.

(** X20. The program notifies only about jobs the database has just
    listed.  Every goroutine that returns was started for an identifier
    in the answer to the query of its own cycle; if it made a request at
    all, that request is the notification of this job to the configured
    URI; and, the server returning the selected rows in some order, the
    job had at that query a status record not yet propagated and below
    the retry ceiling. *)
Theorem notifications_are_for_candidates : forall cfg tr s,
  exec cfg initial tr s ->
  forall t es, In (LReturn t es) tr ->
    (forall req res, In (HttpDo req res) es ->
                     req = notification (propagator_of cfg) (t_jobExtID t))
    /\ exists srv ids es0,
         In (LQuery (t_cycle t) srv ids es0) tr
         /\ In (t_jobExtID t) ids
         /\ ((forall l, Permutation (sql.row_order srv l) l) ->
             exists r, In r (sql.table srv)
                       /\ external_id r = t_jobExtID t
                       /\ propagated r = false
                       /\ propagation_attempts r < cfg_maxRetries cfg).
Proof.
  intros cfg tr s Hexec t es Hret. split.
  - intros req res Hin.
    destruct (return_label_sound cfg tr s Hexec t es Hret) as [net ->].
    unfold goroutine_of in Hin. rewrite propagator_goroutine_runs in Hin.
    cbn [effects fst] in Hin. fold (propagator_of cfg) in Hin.
    destruct Hin as [Hin|Hin]; [discriminate|].
    apply in_app_or in Hin as [Hin|Hin].
    + pose proof (Propagate_cases net (propagator_of cfg) (t_jobExtID t)) as Hc.
      destruct (http.url_Parse net (appsURI (propagator_of cfg))).
      * destruct (http.Client_Do net (notification (propagator_of cfg) (t_jobExtID t)));
          rewrite Hc in Hin; cbn [effects fst] in Hin;
          apply In_HttpDo_prologue in Hin; cbn [In] in Hin;
          repeat (destruct Hin as [Hin|Hin]; [try discriminate; injection Hin as <- _;
                                              reflexivity|]); contradiction.
      * rewrite Hc in Hin. cbn [effects fst] in Hin.
        apply In_HttpDo_prologue in Hin. cbn [In] in Hin.
        destruct Hin as [Hin|[]]. discriminate.
    + apply in_app_or in Hin as [Hin|Hin].
      * destruct (result (Propagate net (propagator_of cfg) (t_jobExtID t)));
          cbn [In] in Hin; [destruct Hin as [Hin|[]]; discriminate|contradiction].
      * cbn [In] in Hin. destruct Hin as [Hin|[]]. discriminate.
  - pose proof (returned_started cfg tr s Hexec t es Hret) as Hgo.
    destruct (go_label_queried cfg tr s Hexec t Hgo) as (srv & ids & es0 & Hq & Hid).
    exists srv, ids, es0. split; [exact Hq|]. split; [exact Hid|].
    intros Hperm.
    destruct (query_label_sound cfg tr s Hexec _ srv ids es0 Hq) as [es1 Hun].
    assert (Hsel : ids = sql.select_distinct srv (cfg_maxRetries cfg)).
    { apply (Unpropagated_nil_error srv (cfg_db cfg)). rewrite Hun. reflexivity. }
    rewrite Hsel in Hid. apply (select_distinct_In srv Hperm) in Hid. exact Hid.
Qed.

Lemma notifications_are_for_candidates_witness :
  exec sample_config initial sample_cycle next_cycle_state
  /\ In (LReturn task_c (effects (goroutine_of sample_config (net_status 200) task_c)))
        sample_cycle
  /\ exists r, In r (sql.table sample_server)
               /\ external_id r = "c"
               /\ propagated r = false
               /\ propagation_attempts r < 3.
Proof.
  split; [exact sample_cycle_exec|].
  assert (Hret : In (LReturn task_c (effects (goroutine_of sample_config (net_status 200) task_c)))
                    sample_cycle).
  { unfold sample_cycle. apply in_or_app. right. do 4 right. left. reflexivity. }
  split; [exact Hret|].
  destruct (notifications_are_for_candidates sample_config sample_cycle next_cycle_state
              sample_cycle_exec task_c _ Hret)
    as (_ & srv & ids & es0 & Hq & _ & Helig).
  assert (Hsrv : srv = sample_server).
  { unfold sample_cycle, sample_trace in Hq. cbn [t_cycle task_c app In] in Hq.
    repeat (destruct Hq as [Hq|Hq]; [congruence|]). contradiction. }
  subst srv. apply Helig. exact rev_is_permutation.
Defined.
